(** * The configuration orchestrator of [config/config.go]

    A shallow embedding of the [config] type of the kratos configuration
    package: [Load], [Value], [Scan], [Watch], [Close] and the per-source
    reconciliation loop [watch].

    The Go code talks to four collaborators whose bodies are not in
    [config.go] ([Reader], [Source], [Watcher], [Value]) and to the run time
    ([sync.Map], [reflect], [time], the logger).  Each call to one of them is
    one _instruction_; a method body is a _program_, a tree of instructions
    written in monadic style so that it reads like the Go text.  A program
    is given two semantics: [run] executes it alone on a [world], and
    [sched] interleaves the instructions of several programs, which is what
    goroutines do to the shared maps.

    What is assumed of the surroundings: an instruction is atomic (the
    methods of [sync.Map] and of the values are, the reader locks); a
    watcher's [Next()] produces a given sequence of outcomes and blocks
    after the last; the body of an observer is not looked into. *)

From stdpp Require Import gmap strings list fin_maps.
From Stdlib Require Import ZArith.

Open Scope string_scope.
Open Scope list_scope.
Open Scope nat_scope.

(** ** Errors *)

(** [error] values.  [ErrNotFound] and [ErrTypeAssert] are the package's
    own (lines 19-24), [context_Canceled] is [context.Canceled];
    [errWrap] is an error whose [Unwrap] gives [inner], [errOther] any
    other error.  A Go [error] that may be [nil] is an [option error]. *)
Inductive error : Type :=
  | ErrNotFound
  | ErrTypeAssert
  | context_Canceled
  | errOther (msg : string)
  | errWrap (msg : string) (inner : error).

#[global] Instance error_eq_dec : EqDecision error.
Proof. solve_decision. Defined.

(** [errors.Is] on a non-nil error: equal to the target, or wrapping an
    error that is. *)
Fixpoint error_is (err target : error) : bool :=
  if decide (err = target) then true
  else match err with
       | errWrap _ inner => error_is inner target
       | _ => false
       end.

(** [errors.Is(err, target)]; a nil [err] is no error at all. *)
Definition errors_Is (err : option error) (target : error) : bool :=
  match err with
  | None => false
  | Some e => error_is e target
  end.

(** The pair [(x, err)] a Go call returns, read the way [config.go] reads
    it: the value is only looked at when [err == nil]. *)
Inductive result (A : Type) : Type :=
  | Ok (a : A)
  | Err (e : error).
Arguments Ok {A} a.
Arguments Err {A} e.

Definition result_err {A} (r : result A) : option error :=
  match r with
  | Ok _ => None
  | Err e => Some e
  end.

(** ** Collaborators as data *)

(** [*KeyValue]: a fragment emitted by a source.  [config.go] reads [Key]
    and [Format] (line 107) and hands the fragments to the reader. *)
Record KeyValue : Type := mkKeyValue {
  Key : string;
  Value_bytes : list Byte.byte;
  Format : string
}.

(** A [Watcher].  [w_next] is the sequence of outcomes its [Next()] will
    produce, in order; once it is used up [Next()] blocks.  [w_Stop] is
    what [Stop()] returns. *)
Record Watcher : Type := mkWatcher {
  w_id : nat;
  w_next : list (result (list KeyValue));
  w_Stop : option error
}.

(** A [Source]: what its [Load()] and its [Watch()] return. *)
Record Source : Type := mkSource {
  src_id : nat;
  src_Load : result (list KeyValue);
  src_Watch : result Watcher
}.

(** An [Observer] is a Go closure; it is known here by a name. *)
Abbreviation Observer := nat (only parsing).

(** A [Value] held by the program is a pointer: a location of the heap. *)
Abbreviation loc := nat (only parsing).

(** A [Scan] target is a pointer too, into the caller's memory. *)
Abbreviation tloc := nat (only parsing).

Inductive level : Type := Debug | Info | Error.

(** [time.Second], in nanoseconds. *)
Definition time_Second : Z := 1000000000%Z.

(** What the code is parametric in. *)
Class Env : Type := mkEnv {
  (** non-nil dynamic values ([interface{}] holding something), their
      [reflect.Type], and [reflect.DeepEqual] on two values of one type *)
  dyn : Type;
  rtype : Type;
  rtype_eq_dec :: EqDecision rtype;
  type_of : dyn → rtype;
  deep_equal : dyn → dyn → bool;
  (** the [Reader]: its state and its four methods (§4.3 of the design).
      [reader_Value] gives the payload the returned [Value] is loaded
      with, or [None] for [ok == false]. *)
  Reader : Type;
  reader_Merge : list KeyValue → Reader → Reader * option error;
  reader_Resolve : Reader → Reader * option error;
  reader_Value : string → Reader → option (option dyn);
  reader_Source : Reader → result (list Byte.byte);
  (** what a [Scan] target points to, and [unmarshalJSON(data, v)] acting
      on it: the object after the call and the error returned *)
  target : Type;
  unmarshalJSON : list Byte.byte → target → target * option error;
  (** the order in which [sync.Map.Range] visits the entries: some
      enumeration of the map *)
  range_order : gmap string loc → list (string * loc);
  range_order_perm : ∀ m, range_order m ≡ₚ map_to_list m
}.

Section Config.
Context {E : Env}.

(** An [interface{}]: [None] is [nil]. *)
Definition iface : Type := option dyn.

(** [reflect.TypeOf]: [nil] for the nil interface. *)
Definition reflect_TypeOf (x : iface) : option rtype := type_of <$> x.

(** [reflect.DeepEqual]: two nils are equal, a nil and a non-nil are not,
    values of different types are not. *)
Definition reflect_DeepEqual (x y : iface) : bool :=
  match x, y with
  | None, None => true
  | Some a, Some b =>
      if decide (type_of a = type_of b) then deep_equal a b else false
  | _, _ => false
  end.

(** Modelled from the spec: the two variants of [Value] (value.go is not
    part of the source at hand).  A live value holds a payload that
    [Store] replaces in place; an error value is immutable and [Load]
    yields no payload. *)
Inductive ValueObj : Type :=
  | atomicValue (payload : iface)
  | errValue (err : error).

Definition obj_Load (o : ValueObj) : iface :=
  match o with
  | atomicValue p => p
  | errValue _ => None
  end.

Definition obj_Store (x : iface) (o : ValueObj) : ValueObj :=
  match o with
  | atomicValue _ => atomicValue x
  | errValue e => errValue e
  end.

(** ** The state *)

(** The fields of [type config struct] (lines 40-47); [opts] is
    represented by the one option the methods read, the sources. *)
Record config : Type := mkConfig {
  sources : list Source;
  reader : Reader;
  cached : gmap string loc;
  observers : gmap string Observer;
  watchers : list Watcher
}.

(** What the collaborators were asked to do, in order. *)
Inductive event : Type :=
  | EvSourceLoad (src : Source)
  | EvSourceWatch (src : Source)
  | EvGo (w : Watcher)
  | EvMerge (kvs : list KeyValue)
  | EvResolve
  | EvSource
  | EvUnmarshal (data : list Byte.byte) (v : tloc)
  | EvObserver (o : Observer) (k : string) (v : loc) (seen : iface)
  | EvSleep (d : Z)
  | EvLog (lvl : level) (fmt : string)
  | EvStop (w : Watcher).

(** The orchestrator, the heap of [Value] objects, the memory the [Scan]
    targets point into, and the trace of calls made so far. *)
Record world : Type := mkWorld {
  cfg : config;
  heap : list ValueObj;
  mem : tloc → target;
  trace : list event
}.

Definition set_reader (r : Reader) (c : config) : config :=
  mkConfig (sources c) r (cached c) (observers c) (watchers c).
Definition set_cached (m : gmap string loc) (c : config) : config :=
  mkConfig (sources c) (reader c) m (observers c) (watchers c).
Definition set_observers (m : gmap string Observer) (c : config) : config :=
  mkConfig (sources c) (reader c) (cached c) m (watchers c).
Definition set_watchers (ws : list Watcher) (c : config) : config :=
  mkConfig (sources c) (reader c) (cached c) (observers c) ws.

Definition with_cfg (f : config → config) (w : world) : world :=
  mkWorld (f (cfg w)) (heap w) (mem w) (trace w).
Definition with_heap (f : list ValueObj → list ValueObj) (w : world) : world :=
  mkWorld (cfg w) (f (heap w)) (mem w) (trace w).
Definition with_mem (f : (tloc → target) → (tloc → target)) (w : world) : world :=
  mkWorld (cfg w) (heap w) (f (mem w)) (trace w).
Definition emit (e : event) (w : world) : world :=
  mkWorld (cfg w) (heap w) (mem w) (trace w ++ [e]).

(** [v.Load()] for the pointer [v]. *)
Definition heap_Load (h : list ValueObj) (v : loc) : iface :=
  match h !! v with
  | Some o => obj_Load o
  | None => None
  end.

(** [v.Store(x)] for the pointer [v]. *)
Definition heap_Store (v : loc) (x : iface) (h : list ValueObj) : list ValueObj :=
  alter (obj_Store x) v h.

(** [*v = t] for a target pointer [v]. *)
Definition mem_set (v : tloc) (t : target) (m : tloc → target) : tloc → target :=
  λ p, if decide (p = v) then t else m p.

(** Modelled from the spec: [Reader.Value(key)] (reader.go is not part of
    the source at hand) is a point lookup that, on a hit, "wraps" what it
    found: it returns a new live [Value] loaded with the payload.  On a
    miss nothing is allocated and [ok] is false. *)
Definition Reader_Value (key : string) (w : world) : option loc * world :=
  match reader_Value key (reader (cfg w)) with
  | Some p => (Some (length (heap w)), with_heap (λ h, h ++ [atomicValue p]) w)
  | None => (None, w)
  end.

(** What [New] returns (lines 50-64): nothing cached, observed or watched. *)
Definition New (srcs : list Source) (r : Reader) : config :=
  mkConfig srcs r ∅ ∅ [].

(** ** Instructions *)

(** One constructor per call that [config.go] makes on shared state or on
    a collaborator; the index is the type of what the call returns. *)
Inductive instr : Type → Type :=
  | CachedLoad (key : string) : instr (option loc)
  | CachedStore (key : string) (v : loc) : instr unit
  | CachedRange : instr (list (string * loc))
  | ObserversLoad (key : string) : instr (option Observer)
  | ObserversStore (key : string) (o : Observer) : instr unit
  | ReaderMerge (kvs : list KeyValue) : instr (option error)
  | ReaderResolve : instr (option error)
  | ReaderValue (key : string) : instr (option loc)
  | ReaderSource : instr (result (list Byte.byte))
  | ValueLoad (v : loc) : instr iface
  | ValueStore (v : loc) (x : iface) : instr unit
  | NewErrValue (err : error) : instr loc
  | CallObserver (o : Observer) (k : string) (v : loc) : instr unit
  | Sleep (d : Z) : instr unit
  | Log (lvl : level) (fmt : string) : instr unit
  | OptsSources : instr (list Source)
  | SourceLoad (src : Source) : instr (result (list KeyValue))
  | SourceWatch (src : Source) : instr (result Watcher)
  | WatchersAppend (w : Watcher) : instr unit
  | Watchers : instr (list Watcher)
  | Go (w : Watcher) : instr unit
  | WatcherStop (w : Watcher) : instr (option error)
  | UnmarshalJSON (data : list Byte.byte) (v : tloc) : instr (option error).

(** What one instruction does to the world.  Calls on collaborators are
    recorded in the trace.  An observer is a closure supplied by the
    caller: its call is recorded, with the payload it is shown, and what
    its body does is not part of [config.go] and not modelled. *)
Definition exec {X} (i : instr X) (w : world) : X * world :=
  match i in instr X return X * world with
  | CachedLoad key => (cached (cfg w) !! key, w)
  | CachedStore key v =>
      (tt, with_cfg (λ c, set_cached (<[key := v]> (cached c)) c) w)
  | CachedRange => (range_order (cached (cfg w)), w)
  | ObserversLoad key => (observers (cfg w) !! key, w)
  | ObserversStore key o =>
      (tt, with_cfg (λ c, set_observers (<[key := o]> (observers c)) c) w)
  | ReaderMerge kvs =>
      let '(r, err) := reader_Merge kvs (reader (cfg w)) in
      (err, emit (EvMerge kvs) (with_cfg (set_reader r) w))
  | ReaderResolve =>
      let '(r, err) := reader_Resolve (reader (cfg w)) in
      (err, emit EvResolve (with_cfg (set_reader r) w))
  | ReaderValue key => Reader_Value key w
  | ReaderSource => (reader_Source (reader (cfg w)), emit EvSource w)
  | ValueLoad v => (heap_Load (heap w) v, w)
  | ValueStore v x => (tt, with_heap (heap_Store v x) w)
  | NewErrValue err => (length (heap w), with_heap (λ h, h ++ [errValue err]) w)
  | CallObserver o k v => (tt, emit (EvObserver o k v (heap_Load (heap w) v)) w)
  | Sleep d => (tt, emit (EvSleep d) w)
  | Log lvl fmt => (tt, emit (EvLog lvl fmt) w)
  | OptsSources => (sources (cfg w), w)
  | SourceLoad src => (src_Load src, emit (EvSourceLoad src) w)
  | SourceWatch src => (src_Watch src, emit (EvSourceWatch src) w)
  | WatchersAppend x =>
      (tt, with_cfg (λ c, set_watchers (watchers c ++ [x]) c) w)
  | Watchers => (watchers (cfg w), w)
  | Go x => (tt, emit (EvGo x) w)
  | WatcherStop x => (w_Stop x, emit (EvStop x) w)
  | UnmarshalJSON data v =>
      let '(t, err) := unmarshalJSON data (mem w v) in
      (err, emit (EvUnmarshal data v) (with_mem (mem_set v t) w))
  end.

(** ** Programs *)

Inductive prog (A : Type) : Type :=
  | Ret (a : A)
  | Vis {X : Type} (i : instr X) (k : X → prog A).
Arguments Ret {A} a.
Arguments Vis {A X} i k.

Fixpoint bind {A B} (m : prog A) (f : A → prog B) : prog B :=
  match m with
  | Ret a => f a
  | Vis i k => Vis i (λ x, bind (k x) f)
  end.

Definition call {X} (i : instr X) : prog X := Vis i Ret.

#[global] Instance prog_ret : MRet prog := @Ret.
#[global] Instance prog_bind : MBind prog := λ A B f m, bind m f.

(** [run p w]: [p] executed from [w] with nothing else running. *)
Fixpoint run {A} (p : prog A) (w : world) : A * world :=
  match p with
  | Ret a => (a, w)
  | Vis i k => let '(x, w') := exec i w in run (k x) w'
  end.

(** [for _, x := range l { body }] where the body runs to its end. *)
Fixpoint for_each {A} (l : list A) (body : A → prog unit) : prog unit :=
  match l with
  | [] => mret tt
  | x :: l' => body x;; for_each l' body
  end.

(** [for _, x := range l { body }] where the body may [return err]: the
    loop gives [Some err] as soon as a body does, [None] at the end. *)
Fixpoint for_each_return {A R} (l : list A) (body : A → prog (option R))
    : prog (option R) :=
  match l with
  | [] => mret None
  | x :: l' =>
      r ← body x;
      match r with
      | Some e => mret (Some e)
      | None => for_each_return l' body
      end
  end.

(** ** The methods of [*config] *)

(** Lines 128-137. *)
Definition Value (key : string) : prog loc :=
  v ← call (CachedLoad key);
  match v with
  | Some v => mret v
  | None =>
      n ← call (ReaderValue key);
      match n with
      | Some v => call (CachedStore key v);; mret v
      | None => call (NewErrValue ErrNotFound)
      end
  end.

(** The function handed to [c.cached.Range] (lines 86-96), for one
    entry.  It always returns [true], so [Range] visits every entry. *)
Definition watch_entry (kv : string * loc) : prog unit :=
  let '(k, v) := kv in
  n ← call (ReaderValue k);
  match n with
  | None => mret tt
  | Some n =>
      nl ← call (ValueLoad n);
      vl ← call (ValueLoad v);
      if bool_decide (reflect_TypeOf nl = reflect_TypeOf vl) then
        nl ← call (ValueLoad n);
        vl ← call (ValueLoad v);
        if negb (reflect_DeepEqual nl vl) then
          nl ← call (ValueLoad n);
          call (ValueStore v nl);;
          o ← call (ObserversLoad k);
          match o with
          | Some o => call (CallObserver o k v)
          | None => mret tt
          end
        else mret tt
      else mret tt
  end.

(** [c.cached.Range(func ...)]. *)
Definition watch_scan : prog unit :=
  entries ← call CachedRange;
  for_each entries watch_entry.

(** How a run of the loop ends: [return] at line 71, or waiting in
    [Next()] for a batch that never comes. *)
Inductive loop_exit : Type := Returned | Blocked.

(** Lines 66-98, the loop run against the outcomes [nexts] of the
    successive [w.Next()] calls. *)
Fixpoint watch_on (nexts : list (result (list KeyValue))) : prog loop_exit :=
  match nexts with
  | [] => mret Blocked
  | r :: nexts' =>
      if errors_Is (result_err r) context_Canceled then
        call (Log Info "watcher's ctx cancel : %v");;
        mret Returned
      else
        match r with
        | Err _ =>
            call (Sleep time_Second);;
            call (Log Error "failed to watch next config: %v");;
            watch_on nexts'
        | Ok kvs =>
            err ← call (ReaderMerge kvs);
            match err with
            | Some _ =>
                call (Log Error "failed to merge next config: %v");;
                watch_on nexts'
            | None =>
                err ← call ReaderResolve;
                match err with
                | Some _ =>
                    call (Log Error "failed to resolve next config: %v");;
                    watch_on nexts'
                | None =>
                    watch_scan;;
                    watch_on nexts'
                end
            end
        end
  end.

Definition watch (w : Watcher) : prog loop_exit := watch_on (w_next w).

(** The body of the loop of [Load] (lines 102-119) for one source. *)
Definition Load_source (src : Source) : prog (option error) :=
  r ← call (SourceLoad src);
  match r with
  | Err err => mret (Some err)
  | Ok kvs =>
      for_each kvs (λ _, call (Log Debug "config loaded: %s format: %s"));;
      err ← call (ReaderMerge kvs);
      match err with
      | Some err =>
          call (Log Error "failed to merge config source: %v");;
          mret (Some err)
      | None =>
          r ← call (SourceWatch src);
          match r with
          | Err err =>
              call (Log Error "failed to watch config source: %v");;
              mret (Some err)
          | Ok w =>
              call (WatchersAppend w);;
              call (Go w);;
              mret None
          end
      end
  end.

(** Lines 100-126. *)
Definition Load : prog (option error) :=
  srcs ← call OptsSources;
  r ← for_each_return srcs Load_source;
  match r with
  | Some err => mret (Some err)
  | None =>
      err ← call ReaderResolve;
      match err with
      | Some err =>
          call (Log Error "failed to resolve config source: %v");;
          mret (Some err)
      | None => mret None
      end
  end.

(** Lines 139-150. *)
Definition Scan (vs : list tloc) : prog (option error) :=
  r ← call ReaderSource;
  match r with
  | Err err => mret (Some err)
  | Ok data =>
      for_each_return vs (λ v, call (UnmarshalJSON data v))
  end.

(** Lines 152-158. *)
Definition Watch (key : string) (o : Observer) : prog (option error) :=
  v ← Value key;
  x ← call (ValueLoad v);
  match x with
  | None => mret (Some ErrNotFound)
  | Some _ =>
      call (ObserversStore key o);;
      mret None
  end.

(** Lines 160-167. *)
Definition Close : prog (option error) :=
  ws ← call Watchers;
  for_each_return ws (λ w, call (WatcherStop w)).

(** ** Goroutines *)

(** Several programs running at once on one world: [step_thread i] lets
    the [i]-th of them execute its next instruction (each instruction is
    atomic: a [sync.Map] method, a call under the reader's lock, an atomic
    load or store), and [sched] follows a schedule, the list of the
    threads that move, in order. *)
Definition step_thread {A} (i : nat) (ps : list (prog A)) (w : world)
    : list (prog A) * world :=
  match ps !! i with
  | Some (Vis ins k) => let '(x, w') := exec ins w in (<[i := k x]> ps, w')
  | _ => (ps, w)
  end.

Fixpoint sched {A} (order : list nat) (ps : list (prog A)) (w : world)
    : list (prog A) * world :=
  match order with
  | [] => (ps, w)
  | i :: order' => let '(ps', w') := step_thread i ps w in sched order' ps' w'
  end.

(** The calls a client or [Load] can have in flight. *)
Inductive api_call : Type :=
  | call_Load
  | call_Value (key : string)
  | call_Scan (vs : list tloc)
  | call_Watch (key : string) (o : Observer)
  | call_Close
  | call_watch (w : Watcher).

(** A call as a thread; what it returns is dropped. *)
Definition thread (c : api_call) : prog unit :=
  match c with
  | call_Load => Load;; mret tt
  | call_Value key => Value key;; mret tt
  | call_Scan vs => Scan vs;; mret tt
  | call_Watch key o => Watch key o;; mret tt
  | call_Close => Close;; mret tt
  | call_watch w => watch w;; mret tt
  end.

(** The world around a freshly built orchestrator. *)
Definition init_world (srcs : list Source) (r : Reader) (m : tloc → target)
    : world :=
  mkWorld (New srcs r) [] m [].

(** ** Vocabulary of the statements *)

(** The events of [w'] that were not yet in [w]. *)
Definition new_events (w w' : world) : list event :=
  drop (length (trace w)) (trace w').

(** Is [e] a call of an observer for key [K]? *)
Definition observes (K : string) (e : event) : bool :=
  match e with
  | EvObserver _ k _ _ => bool_decide (k = K)
  | _ => false
  end.

(** The cache holds pointers to allocated objects, one object per key. *)
Definition cache_wf (w : world) : Prop :=
  (∀ k l, cached (cfg w) !! k = Some l → l < length (heap w)) ∧
  (∀ k1 k2 l, cached (cfg w) !! k1 = Some l → cached (cfg w) !! k2 = Some l → k1 = k2).

(** What [Value(key)] has to do from the world [w] (§4.1): the cached
    pointer and nothing else when there is one; else on a reader hit a
    newly allocated live value holding the reader's payload, entered in
    the cache; else a newly allocated error value carrying [ErrNotFound],
    the orchestrator left as it was. *)
Definition Value_contract (key : string) (w : world) : Prop :=
  let '(v, w') := run (Value key) w in
  match cached (cfg w) !! key with
  | Some c => v = c ∧ w' = w
  | None =>
      heap w !! v = None ∧ mem w' = mem w ∧ trace w' = trace w ∧
      match reader_Value key (reader (cfg w)) with
      | Some p =>
          heap w' = heap w ++ [atomicValue p] ∧
          heap w' !! v = Some (atomicValue p) ∧
          cfg w' = set_cached (<[key := v]> (cached (cfg w))) (cfg w)
      | None =>
          heap w' = heap w ++ [errValue ErrNotFound] ∧
          heap w' !! v = Some (errValue ErrNotFound) ∧
          heap_Load (heap w') v = None ∧
          cfg w' = cfg w
      end
  end.

(** Does this outcome of [Next()] make line 69 true? *)
Definition is_cancel (r : result (list KeyValue)) : bool :=
  errors_Is (result_err r) context_Canceled.


(** The memory after [unmarshalJSON(data, v)], and after doing that for
    each target of [vs] in turn. *)
Definition decode_into (data : list Byte.byte) (m : tloc → target) (v : tloc)
    : tloc → target :=
  mem_set v (unmarshalJSON data (m v)).1 m.

Definition decode_all (data : list Byte.byte) (vs : list tloc)
    (m : tloc → target) : tloc → target :=
  foldl (decode_into data) m vs.

(** The world after the [Debugf] line of [Load] ran for each fragment. *)
Definition debug_logged (kvs : list KeyValue) (w : world) : world :=
  foldl (λ w _, emit (EvLog Debug "config loaded: %s format: %s") w) w kvs.

(** What the design says the processing of one source by [Load] amounts
    to (§4.1), as a function on worlds: [Source.Load], a debug line per
    fragment, [Reader.Merge], [Source.Watch], then the watcher recorded
    and its loop started; the first failing step gives the error and ends
    the processing. *)
Definition Load_source_outcome (src : Source) (w : world)
    : option error * world :=
  let w0 := emit (EvSourceLoad src) w in
  match src_Load src with
  | Err err => (Some err, w0)
  | Ok kvs =>
      let '(rd, e) := reader_Merge kvs (reader (cfg w)) in
      let w1 := emit (EvMerge kvs)
                  (with_cfg (set_reader rd) (debug_logged kvs w0)) in
      match e with
      | Some err =>
          (Some err, emit (EvLog Error "failed to merge config source: %v") w1)
      | None =>
          let w2 := emit (EvSourceWatch src) w1 in
          match src_Watch src with
          | Err err =>
              (Some err,
               emit (EvLog Error "failed to watch config source: %v") w2)
          | Ok x =>
              (None,
               emit (EvGo x)
                 (with_cfg (λ c, set_watchers (watchers c ++ [x]) c) w2))
          end
      end
  end.

(** The world after the sources [srcs] were processed one after the
    other. *)
Definition sources_loaded (srcs : list Source) (w : world) : world :=
  foldl (λ w src, (Load_source_outcome src w).2) w srcs.

(** How many times [Reader.Resolve] was called. *)
Definition is_Resolve (e : event) : bool :=
  match e with
  | EvResolve => true
  | _ => false
  end.

(** Is [e] a [time.Sleep]? *)
Definition is_Sleep (e : event) : bool :=
  match e with
  | EvSleep _ => true
  | _ => false
  end.

Definition count_Resolve (tr : list event) : nat :=
  length (filter (λ e, is_Resolve e = true) tr).


(** Every [unmarshalJSON(data, v)] of the loop over [vs], started on the
    memory [m], returns nil. *)
Fixpoint decodes_ok (data : list Byte.byte) (vs : list tloc)
    (m : tloc → target) : Prop :=
  match vs with
  | [] => True
  | v :: vs' =>
      (unmarshalJSON data (m v)).2 = None ∧
      decodes_ok data vs' (decode_into data m v)
  end.


(** The calls of an observer for key [K] among the events [tr]. *)
Definition observer_calls (K : string) (tr : list event) : list event :=
  filter (λ e, observes K e = true) tr.


(** Every instruction that [p] can execute has the property [P]. *)
Fixpoint all_instr (P : ∀ X, instr X → Prop) {A} (p : prog A) : Prop :=
  match p with
  | Ret _ => True
  | Vis i k => P _ i ∧ ∀ x, all_instr P (k x)
  end.

(** [i] is not a [c.cached.Store]. *)
Definition not_CachedStore (X : Type) (i : instr X) : Prop :=
  match i with
  | CachedStore _ _ => False
  | _ => True
  end.

(** [i] neither registers nor calls an observer. *)
Definition not_observing (X : Type) (i : instr X) : Prop :=
  match i with
  | ObserversStore _ _ | CallObserver _ _ _ => False
  | _ => True
  end.

(** The calls of [cs] made one after the other, each run to its end
    before the next starts. *)
Definition run_calls (cs : list api_call) (w : world) : world :=
  foldl (λ w c, (run (thread c) w).2) w cs.


(** ** Vocabulary for overlapping calls *)

(** [w'] may come after [w]: the cache has kept its keys and error
    values are still error values.  Every instruction takes a world to a
    later one. *)
Definition later (w w' : world) : Prop :=
  dom (cached (cfg w)) ⊆ dom (cached (cfg w')) ∧
  ∀ l e, heap w !! l = Some (errValue e) → heap w' !! l = Some (errValue e).

(** If [e] is a call of an observer, its key is in the cache of [w]. *)
Definition observed_key_cached (w : world) (e : event) : Prop :=
  match e with
  | EvObserver _ k _ _ => k ∈ dom (cached (cfg w))
  | _ => True
  end.

(** Observers are registered for cached keys only, and were called for
    cached keys only. *)
Definition registry_inv (w : world) : Prop :=
  dom (observers (cfg w)) ⊆ dom (cached (cfg w)) ∧
  Forall (observed_key_cached w) (trace w).

(** What [registry_inv] needs of an instruction about to execute. *)
Definition instr_ok {X} (i : instr X) (w : world) : Prop :=
  match i with
  | ObserversStore key _ => key ∈ dom (cached (cfg w))
  | CallObserver _ k _ => k ∈ dom (cached (cfg w))
  | _ => True
  end.

(** [safe Q p w]: from [w] on, whatever other threads do between the
    instructions of [p], each instruction of [p] finds the world as
    [instr_ok] wants it, and when [p] has returned [a] the world
    satisfies [Q a]. *)
Fixpoint safe {A} (Q : A → world → Prop) (p : prog A) (w : world) : Prop :=
  match p with
  | Ret a => ∀ w', later w w' → Q a w'
  | Vis i k =>
      ∀ w', later w w' →
        instr_ok i w' ∧ safe Q (k (exec i w').1) (exec i w').2
  end.


(** ** Vocabulary for the further properties *)

(** The watchers whose loop was started ([go c.watch(w)]), in order. *)
Definition spawned (tr : list event) : list Watcher :=
  omap (λ e, match e with EvGo x => Some x | _ => None end) tr.

(** [i] writes neither the two maps, nor a [Value], nor a [Scan] target,
    allocates nothing and calls no observer. *)
Definition keeps_state (X : Type) (i : instr X) : Prop :=
  match i with
  | CachedStore _ _ | ObserversStore _ _ | ValueStore _ _ | ReaderValue _
  | NewErrValue _ | UnmarshalJSON _ _ | CallObserver _ _ _ => False
  | _ => True
  end.

(** [i] leaves the maps' keys, the watchers and the [Scan] targets
    alone (it may store into a [Value] and allocate). *)
Definition keeps_maps (X : Type) (i : instr X) : Prop :=
  match i with
  | CachedStore _ _ | ObserversStore _ _ | WatchersAppend _
  | UnmarshalJSON _ _ => False
  | _ => True
  end.

(** An outcome of [Next()] that is an error but not a cancellation. *)
Definition is_transient (r : result (list KeyValue)) : bool :=
  match r with
  | Ok _ => false
  | Err e => negb (error_is e context_Canceled)
  end.

(** Is [e] a call of an observer? *)
Definition is_observer_call (e : event) : bool :=
  match e with
  | EvObserver _ _ _ _ => true
  | _ => false
  end.

(** Every cached pointer points to a live value. *)
Definition cache_live (w : world) : Prop :=
  ∀ k l, cached (cfg w) !! k = Some l → ∃ p, heap w !! l = Some (atomicValue p).


(** Live values of [w] are live values of [w']. *)
Definition live_later (w w' : world) : Prop :=
  ∀ l p, heap w !! l = Some (atomicValue p) →
         ∃ p', heap w' !! l = Some (atomicValue p').

(** What [cache_live] needs of an instruction about to execute. *)
Definition instr_live_ok {X} (i : instr X) (w : world) : Prop :=
  match i with
  | CachedStore _ v => ∃ p, heap w !! v = Some (atomicValue p)
  | _ => True
  end.

(** [safe_live p w]: from [w] on, whatever other threads do between the
    instructions of [p], what [p] stores in the cache is a live value. *)
Fixpoint safe_live {A} (p : prog A) (w : world) : Prop :=
  match p with
  | Ret _ => True
  | Vis i k =>
      ∀ w', live_later w w' →
        instr_live_ok i w' ∧ safe_live (k (exec i w').1) (exec i w').2
  end.


End Config.

Arguments Ret {E A} a.
Arguments Vis {E A X} i k.
Arguments Reader_Value {E} key w /.

(** ** A small environment to run the code in *)

Module Toy.

(** Payloads are integers or strings. *)
Inductive toy_dyn : Type :=
  | TInt (n : Z)
  | TStr (s : string).

Inductive toy_type : Type := IntT | StrT.

#[global] Instance toy_type_eq_dec : EqDecision toy_type.
Proof. solve_decision. Defined.

Definition toy_type_of (d : toy_dyn) : toy_type :=
  match d with
  | TInt _ => IntT
  | TStr _ => StrT
  end.

Definition toy_deep_equal (a b : toy_dyn) : bool :=
  match a, b with
  | TInt n, TInt m => (n =? m)%Z
  | TStr s, TStr t => String.eqb s t
  | _, _ => false
  end.

(** The reader keeps the fragments it merged, newest first.  A fragment
    of format ["int"] gives its key the number of its bytes, one of format
    ["string"] the bytes as a string, any other the nil payload. *)
Definition toy_payload (kv : KeyValue) : option toy_dyn :=
  if String.eqb (Format kv) "int" then
    Some (TInt (Z.of_nat (length (Value_bytes kv))))
  else if String.eqb (Format kv) "string" then
    Some (TStr (String.string_of_list_byte (Value_bytes kv)))
  else None.

(** [Merge] refuses a batch with a fragment of format ["bad"]. *)
Definition toy_Merge (kvs : list KeyValue) (r : list KeyValue)
    : list KeyValue * option error :=
  if existsb (λ kv, String.eqb (Format kv) "bad") kvs
  then (r, Some (errOther "bad fragment"))
  else (rev kvs ++ r, None).

(** [Resolve] fails while a fragment of format ["loop"] is merged. *)
Definition toy_Resolve (r : list KeyValue) : list KeyValue * option error :=
  if existsb (λ kv, String.eqb (Format kv) "loop") r
  then (r, Some (errOther "unresolved reference"))
  else (r, None).

Definition toy_Value (key : string) (r : list KeyValue)
    : option (option toy_dyn) :=
  toy_payload <$> List.find (λ kv, String.eqb (Key kv) key) r.

(** The snapshot is the bytes of the merged fragments, oldest first;
    there is none before anything is merged. *)
Definition toy_Source (r : list KeyValue) : result (list Byte.byte) :=
  match r with
  | [] => Err (errOther "nothing merged")
  | _ => Ok (concat (Value_bytes <$> rev r))
  end.

(** A target is a buffer.  Decoding writes the bytes of the snapshot into
    it one by one; the byte [xff] cannot be decoded: the call stops there
    with an error, what was written before stays written and the rest of
    the buffer stays as it was. *)
Fixpoint toy_unmarshal (data t : list Byte.byte)
    : list Byte.byte * option error :=
  match data with
  | [] => ([], None)
  | b :: data' =>
      if Byte.eqb b Byte.xff then (t, Some (errOther "cannot unmarshal"))
      else let '(t', e) := toy_unmarshal data' (tail t) in (b :: t', e)
  end.

Definition toy_env : Env :=
  mkEnv toy_dyn toy_type _ toy_type_of toy_deep_equal
        (list KeyValue) toy_Merge toy_Resolve toy_Value toy_Source
        (list Byte.byte) toy_unmarshal
        map_to_list (λ _, reflexivity _).

(** A fragment setting [key] to an integer, and one setting it to a
    string. *)
Definition int_kv (key : string) (n : nat) : KeyValue :=
  mkKeyValue key (replicate n Byte.x00) "int".

Definition str_kv (key : string) (s : string) : KeyValue :=
  mkKeyValue key (String.list_byte_of_string s) "string".

(** A fresh orchestrator over a reader that merged [kvs], every target
    an empty buffer. *)
Definition toy_world (srcs : list Source) (kvs : list KeyValue)
    : @world toy_env :=
  @init_world toy_env srcs (rev kvs) (λ _, []).

#[local] Existing Instance toy_env.

(** An orchestrator whose reader has ["level"] as the integer 1, after
    [Watch("level", 7)]: the key is cached as the value 0 and observer 7
    is registered for it. *)
Definition watched_level : world :=
  run_calls [call_Watch "level" 7] (toy_world [] [int_kv "level" 1]).

(** A fragment whose second byte cannot be decoded. *)
Definition half_decodable : KeyValue :=
  mkKeyValue "level" [Byte.x61; Byte.xff] "string".

(** Watchers and sources: [w_b] cannot be stopped, [src_b] cannot be
    watched, [src_b'] can. *)
Definition w_a : Watcher := mkWatcher 0 [] None.
Definition w_b : Watcher := mkWatcher 1 [] (Some (errOther "stuck")).
Definition src_a : Source := mkSource 0 (Ok [str_kv "level" "info"]) (Ok w_a).
Definition src_b : Source :=
  mkSource 1 (Ok [str_kv "level" "debug"]) (Err (errOther "no watch")).
Definition src_b' : Source := mkSource 1 (Ok [str_kv "level" "debug"]) (Ok w_b).

(** More worlds to run the code in. *)
Definition plain_level : world := toy_world [] [int_kv "level" 1].

Definition empty_world : world := toy_world [] [].

(** [Value("missing")], then [Watch("level", 7)]: object 0 is an error
    value, object 1 the cached value of ["level"]. *)
Definition missed_then_watched : world :=
  run_calls [call_Value "missing"; call_Watch "level" 7] plain_level.

(** [watched_level] once the reader has merged the integer 2 for
    ["level"], before any scan. *)
Definition level_changed : world :=
  with_cfg (set_reader [int_kv "level" 2; int_kv "level" 1]) watched_level.

(** A reader that can also forget: a fragment of format ["delete"]
    removes its key, the other fragments are merged as before. *)
Definition del_Merge (kvs : list KeyValue) (r : list KeyValue)
    : list KeyValue * option error :=
  if existsb (λ kv, String.eqb (Format kv) "bad") kvs
  then (r, Some (errOther "bad fragment"))
  else (foldl (λ r kv,
                 if String.eqb (Format kv) "delete"
                 then List.filter (λ kv', negb (String.eqb (Key kv') (Key kv))) r
                 else kv :: r) r kvs,
        None).

Definition del_env : Env :=
  mkEnv toy_dyn toy_type _ toy_type_of toy_deep_equal
        (list KeyValue) del_Merge toy_Resolve toy_Value toy_Source
        (list Byte.byte) toy_unmarshal
        map_to_list (λ _, reflexivity _).

Definition del_kv (key : string) : KeyValue := mkKeyValue key [] "delete".

(** As [watched_level], over the forgetful reader. *)
Definition del_watched : @world del_env :=
  @run_calls del_env [call_Watch "level" 7]
    (@init_world del_env [] [int_kv "level" 1] (λ _, [])).

End Toy.


(** * Properties *)

Section Properties.
Context {E : Env}.

(** ** Running programs *)

Lemma run_bind_raw {A B} (m : prog A) (f : A → prog B) w :
  run (bind m f) w = run (f (run m w).1) (run m w).2.
Proof.
  revert w. induction m as [a|X i k IH]; intros w; [done|].
  cbn. destruct (exec i w) as [x w']. apply IH.
Qed.

Lemma run_bind {A B} (m : prog A) (f : A → prog B) w :
  run (m ≫= f) w = run (f (run m w).1) (run m w).2.
Proof. apply run_bind_raw. Qed.

Lemma run_for_each_cons {A} (x : A) l body w :
  run (for_each (x :: l) body) w = run (for_each l body) (run (body x) w).2.
Proof. cbn [for_each]. by rewrite run_bind. Qed.

Lemma run_for_each_app {A} (l1 l2 : list A) body w :
  run (for_each (l1 ++ l2) body) w
  = run (for_each l2 body) (run (for_each l1 body) w).2.
Proof.
  revert w. induction l1 as [|x l1 IH]; intros w; [done|].
  rewrite <- app_comm_cons, !run_for_each_cons. apply IH.
Qed.

Lemma run_for_each_return_cons {A R} (x : A) l (body : A → prog (option R)) w :
  run (for_each_return (x :: l) body) w =
  match run (body x) w with
  | (Some e, w') => (Some e, w')
  | (None, w') => run (for_each_return l body) w'
  end.
Proof.
  cbn [for_each_return]. rewrite run_bind.
  destruct (run (body x) w) as [[e|] w']; done.
Qed.

(** ** [Value] *)

Lemma Value_contract_holds key w : Value_contract key w.
Proof.
  unfold Value_contract, Value. cbn.
  destruct (cached (cfg w) !! key) as [c|] eqn:Hc; cbn; [done|].
  destruct (reader_Value key (reader (cfg w))) as [p|] eqn:Hr; cbn.
  - repeat split; try done.
    + apply lookup_ge_None. lia.
    + by rewrite lookup_app_r, Nat.sub_diag.
  - repeat split; try done.
    + apply lookup_ge_None. lia.
    + by rewrite lookup_app_r, Nat.sub_diag.
    + unfold heap_Load. by rewrite lookup_app_r, Nat.sub_diag.
Qed.

(** C3.  [Value(key)] returns the cached value when there is one;
    otherwise, on a reader hit, the reader's value, which it enters in the
    cache; otherwise a new error value carrying [ErrNotFound], whose
    [Load] gives nil, with the orchestrator left unchanged.  This is so in
    every world: the one at hand, the one [Load] leaves, and the one any
    number of reconciliation cycles leave. *)
Theorem Value_spec key w :
  Value_contract key w ∧
  Value_contract key (run Load w).2 ∧
  ∀ nexts, Value_contract key (run (watch_on nexts) w).2.
Proof. repeat split; intros; apply Value_contract_holds. Qed.

Lemma Value_observers key w :
  observers (cfg (run (Value key) w).2) = observers (cfg w).
Proof.
  unfold Value. cbn.
  destruct (cached (cfg w) !! key); cbn; [done|].
  destruct (reader_Value key (reader (cfg w))); done.
Qed.

(** ** [Watch] *)

(** C6.  With [v] what [Value(key)] returns: when [v.Load()] is nil,
    [Watch(key, o)] returns [ErrNotFound] and does nothing beyond that
    [Value] call, so no callback is registered; otherwise it returns nil
    and its only further effect is to make [o] the callback of [key],
    whatever was registered for [key] before.  The two results differ, so
    the error is returned exactly when the load is nil. *)
Theorem Watch_spec key o w :
  let '(v, w1) := run (Value key) w in
  let '(err, w2) := run (Watch key o) w in
  observers (cfg w1) = observers (cfg w) ∧
  match heap_Load (heap w1) v with
  | None => err = Some ErrNotFound ∧ w2 = w1
  | Some _ =>
      err = None ∧
      w2 = with_cfg (λ c, set_observers (<[key := o]> (observers c)) c) w1 ∧
      observers (cfg w2) !! key = Some o
  end.
Proof.
  pose proof (Value_observers key w) as Hobs.
  unfold Watch. rewrite run_bind.
  destruct (run (Value key) w) as [v w1]; cbn in *.
  destruct (heap_Load (heap w1) v); cbn; [|done].
  repeat split; [done|]. apply lookup_insert_eq.
Qed.

(** ** [Close] *)

Lemma Close_loop ws w :
  let '(r, w') := run (for_each_return ws (λ x, call (WatcherStop x))) w in
  cfg w' = cfg w ∧ heap w' = heap w ∧ mem w' = mem w ∧
  match list_find (λ x, is_Some (w_Stop x)) ws with
  | Some (i, x) => r = w_Stop x ∧ trace w' = trace w ++ (EvStop <$> take (S i) ws)
  | None => r = None ∧ trace w' = trace w ++ (EvStop <$> ws)
  end.
Proof.
  revert w. induction ws as [|x ws IH]; intros w.
  - cbn. by rewrite app_nil_r.
  - rewrite run_for_each_return_cons. cbn [list_find].
    cbn -[list_find for_each_return take].
    destruct (w_Stop x) as [e|] eqn:Hx.
    + rewrite decide_True by eauto. cbn. by rewrite Hx.
    + rewrite decide_False by (intros [? ?]; done).
      specialize (IH (emit (EvStop x) w)).
      destruct (run _ _) as [r w']. destruct IH as (-> & -> & -> & IH).
      repeat split. cbn in IH.
      destruct (list_find _ ws) as [[i y]|]; cbn; destruct IH as [-> ->];
        by rewrite <- app_assoc.
Qed.

(** C7.  [Close()] calls [Stop] on the tracked watchers in the order of
    [c.watchers], the order in which [Load] appended them.  If [x], at
    index [i], is the first whose [Stop] fails, exactly the watchers up to
    and including [x] are stopped, in order, and [x]'s error is returned:
    the watchers after [x] get no [Stop].  If no [Stop] fails (or nothing
    is tracked), all are stopped and the result is nil.  Nothing else
    changes. *)
Theorem Close_spec w :
  let ws := watchers (cfg w) in
  let '(r, w') := run Close w in
  cfg w' = cfg w ∧ heap w' = heap w ∧ mem w' = mem w ∧
  match list_find (λ x, is_Some (w_Stop x)) ws with
  | Some (i, x) => r = w_Stop x ∧ trace w' = trace w ++ (EvStop <$> take (S i) ws)
  | None => r = None ∧ trace w' = trace w ++ (EvStop <$> ws)
  end.
Proof. unfold Close. cbn -[for_each_return list_find take]. apply Close_loop. Qed.

(** ** The reconciliation loop *)

Lemma watch_on_cons r nexts w :
  run (watch_on (r :: nexts)) w =
  match r with
  | Err e =>
      if error_is e context_Canceled then
        (Returned, emit (EvLog Info "watcher's ctx cancel : %v") w)
      else
        run (watch_on nexts)
          (emit (EvLog Error "failed to watch next config: %v")
             (emit (EvSleep time_Second) w))
  | Ok kvs =>
      let '(rd1, e1) := reader_Merge kvs (reader (cfg w)) in
      let w1 := emit (EvMerge kvs) (with_cfg (set_reader rd1) w) in
      match e1 with
      | Some _ =>
          run (watch_on nexts)
            (emit (EvLog Error "failed to merge next config: %v") w1)
      | None =>
          let '(rd2, e2) := reader_Resolve rd1 in
          let w2 := emit EvResolve (with_cfg (set_reader rd2) w1) in
          match e2 with
          | Some _ =>
              run (watch_on nexts)
                (emit (EvLog Error "failed to resolve next config: %v") w2)
          | None => run (watch_on nexts) (run watch_scan w2).2
          end
      end
  end.
Proof.
  destruct r as [kvs|e]; cbn [watch_on result_err errors_Is].
  - cbn -[watch_scan].
    destruct (reader_Merge kvs (reader (cfg w))) as [rd1 [e1|]];
      cbn -[watch_scan]; [done|].
    destruct (reader_Resolve rd1) as [rd2 [e2|]]; cbn -[watch_scan]; [done|].
    fold (@mbind prog _ _ _ (λ _ : unit, watch_on nexts) watch_scan).
    by rewrite run_bind.
  - destruct (error_is e context_Canceled); done.
Qed.

Lemma watch_on_exit nexts w :
  (run (watch_on nexts) w).1
  = if existsb is_cancel nexts then Returned else Blocked.
Proof.
  revert w. induction nexts as [|r nexts IH]; intros w; [done|].
  rewrite watch_on_cons. cbn [existsb]. unfold is_cancel at 1.
  destruct r as [kvs|e]; cbn [result_err errors_Is orb].
  - destruct (reader_Merge kvs (reader (cfg w))) as [rd1 [e1|]];
      cbn zeta; [apply IH|].
    destruct (reader_Resolve rd1) as [rd2 [e2|]]; apply IH.
  - destruct (error_is e context_Canceled); [done|apply IH].
Qed.

(** C4.  One iteration of the loop, on the outcome [r] of [w.Next()],
    with [nexts] the outcomes still to come.  A cancellation error ends
    the run at once: the result is [Returned] whatever [nexts] is, and the
    only thing done is the log line (no sleep, no merge).  Any other error
    is followed by a one-second sleep and the log line, then the loop goes
    on, the reader untouched.  A failed [Merge] is followed by its log
    line only (no [Resolve], no scan of the cache), a failed [Resolve]
    likewise (no scan: cache and values as before).  Only when both
    succeed is the cache scanned.  The loop hands no error to anyone: a
    run ends [Returned] when some [Next()] was cancelled and is otherwise
    still waiting in [Next()], whatever failed on the way. *)
Theorem watch_iteration r nexts w :
  run (watch_on (r :: nexts)) w =
  match r with
  | Err e =>
      if error_is e context_Canceled then
        (Returned, emit (EvLog Info "watcher's ctx cancel : %v") w)
      else
        run (watch_on nexts)
          (emit (EvLog Error "failed to watch next config: %v")
             (emit (EvSleep time_Second) w))
  | Ok kvs =>
      let '(rd1, e1) := reader_Merge kvs (reader (cfg w)) in
      let w1 := emit (EvMerge kvs) (with_cfg (set_reader rd1) w) in
      match e1 with
      | Some _ =>
          run (watch_on nexts)
            (emit (EvLog Error "failed to merge next config: %v") w1)
      | None =>
          let '(rd2, e2) := reader_Resolve rd1 in
          let w2 := emit EvResolve (with_cfg (set_reader rd2) w1) in
          match e2 with
          | Some _ =>
              run (watch_on nexts)
                (emit (EvLog Error "failed to resolve next config: %v") w2)
          | None => run (watch_on nexts) (run watch_scan w2).2
          end
      end
  end
  ∧ (run (watch_on (r :: nexts)) w).1
    = if existsb is_cancel (r :: nexts) then Returned else Blocked.
Proof. split; [apply watch_on_cons | apply watch_on_exit]. Qed.


(** ** [Scan] *)

Lemma decode_all_notin data vs m p :
  p ∉ vs → decode_all data vs m p = m p.
Proof.
  revert m. induction vs as [|v vs IH]; intros m Hp; [done|].
  apply not_elem_of_cons in Hp as [Hne Hp].
  unfold decode_all in *. cbn [foldl]. rewrite IH by done.
  unfold decode_into, mem_set. by rewrite decide_False.
Qed.

Lemma decode_all_app data vs1 vs2 m :
  decode_all data (vs1 ++ vs2) m = decode_all data vs2 (decode_all data vs1 m).
Proof. apply foldl_app. Qed.

Lemma decodes_ok_holds data vs m :
  decodes_ok data vs m →
  ∀ p, decode_all data vs m p = m p ∨
       ∃ t0, unmarshalJSON data t0 = (decode_all data vs m p, None).
Proof.
  revert m. induction vs as [|v vs IH]; intros m Hok p; [by left|].
  destruct Hok as [Hv Hok]. unfold decode_all in *. cbn [foldl].
  destruct (IH _ Hok p) as [Heq|Hdec]; [|by right].
  rewrite Heq. unfold decode_into, mem_set. case_decide as Hp; [|by left].
  subst p. right. exists (m v).
  destruct (unmarshalJSON data (m v)) as [t e]; cbn in *. by subst e.
Qed.

Lemma decodes_ok_Forall data vs m :
  decodes_ok data vs m →
  Forall (λ v, ∃ t0, unmarshalJSON data t0 = (decode_all data vs m v, None)) vs.
Proof.
  revert m. induction vs as [|v vs IH]; intros m Hok; [constructor|].
  destruct Hok as [Hv Hok]. constructor.
  - unfold decode_all. cbn [foldl].
    destruct (decodes_ok_holds _ _ _ Hok v) as [Heq|Hdec]; [|done].
    unfold decode_all in Heq. rewrite Heq. exists (m v).
    unfold decode_into, mem_set. rewrite decide_True by done.
    destruct (unmarshalJSON data (m v)) as [t e]; cbn in *. by subst e.
  - apply (IH _ Hok).
Qed.

Lemma Scan_loop data vs w :
  let '(r, w') := run (for_each_return vs (λ v, call (UnmarshalJSON data v))) w in
  cfg w' = cfg w ∧ heap w' = heap w ∧
  match r with
  | None =>
      trace w' = trace w ++ (EvUnmarshal data <$> vs) ∧
      decodes_ok data vs (mem w) ∧
      mem w' = decode_all data vs (mem w)
  | Some e =>
      ∃ i v t,
        vs !! i = Some v ∧
        trace w' = trace w ++ (EvUnmarshal data <$> take (S i) vs) ∧
        let m_i := decode_all data (take i vs) (mem w) in
        decodes_ok data (take i vs) (mem w) ∧
        unmarshalJSON data (m_i v) = (t, Some e) ∧
        mem w' = mem_set v t m_i
  end.
Proof.
  revert w. induction vs as [|v vs IH]; intros w.
  - cbn. by rewrite app_nil_r.
  - rewrite run_for_each_return_cons. cbn -[for_each_return take].
    destruct (unmarshalJSON data (mem w v)) as [t [e|]] eqn:Hu.
    + cbn. repeat split. by exists 0, v, t.
    + set (w1 := emit _ _). specialize (IH w1).
      destruct (run _ w1) as [r w']. destruct IH as (-> & -> & IH).
      repeat split.
      assert (Hm1 : mem w1 = decode_into data (mem w) v).
      { unfold decode_into. by rewrite Hu. }
      destruct r as [e|].
      * destruct IH as (i & v' & t' & Hv' & Htr & Hok & Hdec & Hmem).
        exists (S i), v', t'. cbn [take lookup decodes_ok]. unfold decode_all in *.
        cbn [foldl]. rewrite <- Hm1. repeat split; try done; try (by rewrite Hu).
        rewrite Htr. cbn. by rewrite <- app_assoc.
      * destruct IH as (Htr & Hok & Hmem). cbn [decodes_ok].
        unfold decode_all in *. cbn [foldl]. rewrite <- Hm1.
        repeat split; try done; try (by rewrite Hu).
        rewrite Htr. cbn. by rewrite <- app_assoc.
Qed.

(** C8.  [Scan(targets...)] calls [Reader.Source()] once.  If that fails,
    the error is returned and nothing but the record of the call changes:
    no target is decoded into.  Otherwise the calls that follow are
    [unmarshalJSON] on a prefix of the targets, in argument order, each
    with the bytes [data] that this one [Source()] call returned; and when
    [Scan] returns nil the prefix is the whole list, every decoding
    returned nil, the memory is the one these decodings leave, and every
    target holds the outcome of a successful decoding of [data].  Sources
    and their formats play no part: [data] depends on the reader alone. *)
Theorem Scan_spec vs w :
  let '(r, w') := run (Scan vs) w in
  cfg w' = cfg w ∧ heap w' = heap w ∧
  match reader_Source (reader (cfg w)) with
  | Err e => r = Some e ∧ w' = emit EvSource w
  | Ok data =>
      (∃ n, trace w' = trace w ++ EvSource :: (EvUnmarshal data <$> take n vs)) ∧
      match r with
      | None =>
          trace w' = trace w ++ EvSource :: (EvUnmarshal data <$> vs) ∧
          decodes_ok data vs (mem w) ∧
          mem w' = decode_all data vs (mem w) ∧
          Forall (λ v, ∃ t0, unmarshalJSON data t0 = (mem w' v, None)) vs
      | Some _ => True
      end
  end.
Proof.
  unfold Scan. cbn -[for_each_return take].
  destruct (reader_Source (reader (cfg w))) as [data|e]; [|done].
  pose proof (Scan_loop data vs (emit EvSource w)) as H.
  destruct (run _ _) as [r w']. destruct H as (-> & -> & H).
  split; [done|]. split; [done|]. destruct r as [e|].
  - destruct H as (i & v & t & _ & Htr & _). split; [|done].
    exists (S i). rewrite Htr. cbn. by rewrite <- app_assoc.
  - destruct H as (Htr & Hok & Hmem).
    assert (trace w' = trace w ++ EvSource :: (EvUnmarshal data <$> vs)) as Htr'.
    { rewrite Htr. cbn. by rewrite <- app_assoc. }
    split; [exists (length vs); by rewrite take_ge by lia|].
    repeat split; try done. rewrite Hmem. by apply decodes_ok_Forall.
Qed.

(** C10, as the code has it.  When [Scan] returns an error that is not
    [Reader.Source]'s, the error is that of [unmarshalJSON] on some
    target [v], at position [i]: the decodings of the targets before
    position [i] all returned nil and those targets hold their outcome;
    [unmarshalJSON] was called on no target after position [i], and any
    pointer that is none of the first [i + 1] targets still points to
    what it did; the target [v] itself holds [t], whatever the failed
    call made of it. *)
Theorem Scan_failure vs w :
  let '(r, w') := run (Scan vs) w in
  match reader_Source (reader (cfg w)), r with
  | Ok data, Some e =>
      ∃ i v t,
        vs !! i = Some v ∧
        trace w' = trace w ++ EvSource :: (EvUnmarshal data <$> take (S i) vs) ∧
        let m_i := decode_all data (take i vs) (mem w) in
        decodes_ok data (take i vs) (mem w) ∧
        Forall (λ u, ∃ t0, unmarshalJSON data t0 = (m_i u, None)) (take i vs) ∧
        unmarshalJSON data (m_i v) = (t, Some e) ∧
        mem w' = mem_set v t m_i ∧
        ∀ p, p ∉ take (S i) vs → mem w' p = mem w p
  | _, _ => True
  end.
Proof.
  unfold Scan. cbn -[for_each_return take].
  destruct (reader_Source (reader (cfg w))) as [data|e0]; [|done].
  pose proof (Scan_loop data vs (emit EvSource w)) as H.
  destruct (run _ _) as [[e|] w']; [|done]. destruct H as (_ & _ & H).
  destruct H as (i & v & t & Hv & Htr & Hok & Hdec & Hmem).
  exists i, v, t. repeat split; try done.
  - rewrite Htr. cbn. by rewrite <- app_assoc.
  - by apply decodes_ok_Forall.
  - intros p Hp. rewrite Hmem. cbn.
    rewrite (take_S_r _ _ _ Hv) in Hp. apply not_elem_of_app in Hp as [Hp1 Hp2].
    unfold mem_set. rewrite decide_False by set_solver.
    by apply decode_all_notin.
Qed.

(** ** [Load] *)

Lemma run_debug_logs kvs w :
  run (for_each kvs (λ _ : KeyValue,
         call (Log Debug "config loaded: %s format: %s"))) w
  = (tt, debug_logged kvs w).
Proof.
  revert w. induction kvs as [|kv kvs IH]; intros w; [done|].
  rewrite run_for_each_cons. cbn -[for_each]. apply IH.
Qed.

Lemma debug_logged_cfg kvs w : cfg (debug_logged kvs w) = cfg w.
Proof.
  revert w. induction kvs as [|kv kvs IH]; intros w; [done|].
  unfold debug_logged in *. cbn [foldl]. by rewrite IH.
Qed.

Lemma Load_source_eq src w :
  run (Load_source src) w = Load_source_outcome src w.
Proof.
  unfold Load_source, Load_source_outcome. cbn -[for_each].
  destruct (src_Load src) as [kvs|err]; [|done].
  rewrite run_bind, run_debug_logs. cbn -[debug_logged].
  rewrite debug_logged_cfg. cbn -[debug_logged].
  destruct (reader_Merge kvs (reader (cfg w))) as [rd [e|]]; cbn; [done|].
  destruct (src_Watch src) as [x|err]; done.
Qed.

Lemma count_Resolve_app l1 l2 :
  count_Resolve (l1 ++ l2) = count_Resolve l1 + count_Resolve l2.
Proof. unfold count_Resolve. by rewrite filter_app, length_app. Qed.

Lemma count_Resolve_cons e l :
  count_Resolve (e :: l) = (if is_Resolve e then 1 else 0) + count_Resolve l.
Proof.
  unfold count_Resolve. destruct (is_Resolve e) eqn:He.
  - by rewrite filter_cons_True.
  - rewrite filter_cons_False; [done|]. by rewrite He.
Qed.

Lemma debug_logged_trace kvs w :
  ∃ evs, trace (debug_logged kvs w) = trace w ++ evs ∧ count_Resolve evs = 0.
Proof.
  revert w. induction kvs as [|kv kvs IH]; intros w.
  - exists []. by rewrite app_nil_r.
  - unfold debug_logged in *. cbn [foldl].
    destruct (IH (emit (EvLog Debug "config loaded: %s format: %s") w))
      as (evs & -> & Hc).
    eexists (_ :: evs). cbn [emit trace]. rewrite <- app_assoc.
    split; [done|]. by rewrite count_Resolve_cons, Hc.
Qed.

Lemma Load_source_trace src w :
  ∃ evs, trace (Load_source_outcome src w).2 = trace w ++ evs ∧
         count_Resolve evs = 0.
Proof.
  unfold Load_source_outcome.
  destruct (debug_logged_trace
              (match src_Load src with Ok kvs => kvs | Err _ => [] end)
              (emit (EvSourceLoad src) w)) as (evs & Hevs & Hc).
  destruct (src_Load src) as [kvs|err]; cbn [snd].
  2:{ by exists [EvSourceLoad src]. }
  destruct (reader_Merge kvs (reader (cfg w))) as [rd [e|]]; cbn [snd].
  { cbn [emit trace with_cfg]. rewrite Hevs. cbn [emit trace].
    eexists (_ :: evs ++ [_; _]).
    rewrite <- !app_assoc. split; [done|].
    by rewrite count_Resolve_cons, count_Resolve_app, Hc. }
  destruct (src_Watch src) as [x|err]; cbn [snd emit trace with_cfg];
    rewrite Hevs; cbn [emit trace].
  - eexists (_ :: evs ++ [_; _; _]).
    rewrite <- !app_assoc. split; [done|].
    by rewrite count_Resolve_cons, count_Resolve_app, Hc.
  - eexists (_ :: evs ++ [_; _; _]).
    rewrite <- !app_assoc. split; [done|].
    by rewrite count_Resolve_cons, count_Resolve_app, Hc.
Qed.

Lemma sources_loaded_trace srcs w :
  ∃ evs, trace (sources_loaded srcs w) = trace w ++ evs ∧
         count_Resolve evs = 0.
Proof.
  revert w. induction srcs as [|src srcs IH]; intros w.
  - exists []. by rewrite app_nil_r.
  - unfold sources_loaded in *. cbn [foldl].
    destruct (IH (Load_source_outcome src w).2) as (evs2 & -> & Hc2).
    destruct (Load_source_trace src w) as (evs1 & -> & Hc1).
    exists (evs1 ++ evs2). rewrite <- app_assoc. split; [done|].
    rewrite count_Resolve_app. lia.
Qed.

Lemma new_events_app w w' evs :
  trace w' = trace w ++ evs → new_events w w' = evs.
Proof. intros H. unfold new_events. by rewrite H, drop_app_length. Qed.

Lemma Load_loop srcs w :
  let '(r, w') := run (for_each_return srcs Load_source) w in
  ∃ n,
    (∀ i src, i < n → srcs !! i = Some src →
       (Load_source_outcome src (sources_loaded (take i srcs) w)).1 = None) ∧
    let w_n := sources_loaded (take n srcs) w in
    match srcs !! n with
    | Some src => ∃ err, Load_source_outcome src w_n = (Some err, w') ∧ r = Some err
    | None => n = length srcs ∧ r = None ∧ w' = w_n
    end.
Proof.
  revert w. induction srcs as [|src srcs IH]; intros w.
  - cbn. exists 0. split; [lia|done].
  - rewrite run_for_each_return_cons, Load_source_eq.
    destruct (Load_source_outcome src w) as [[err|] w1] eqn:Hsrc.
    + exists 0. split; [lia|]. cbn. eauto.
    + specialize (IH w1). destruct (run _ w1) as [r w'].
      destruct IH as (n & Hbefore & IH). exists (S n). split.
      * intros [|i] src' Hi Hsrc'; cbn in *.
        -- injection Hsrc' as <-. by rewrite Hsrc.
        -- unfold sources_loaded in *. cbn [foldl]. rewrite Hsrc.
           apply Hbefore; [lia|done].
      * cbn [take lookup]. unfold sources_loaded in *. cbn [foldl].
        rewrite Hsrc. cbn. destruct (srcs !! n); [done|].
        destruct IH as (-> & -> & ->). done.
Qed.

(** C5.  [Load()] takes the sources of [c.opts.sources] in order.  The
    body of its loop does for one source what [Load_source_outcome] says:
    [Source.Load], then [Reader.Merge] of the fragments, then
    [Source.Watch], then the watcher appended to [c.watchers] and its loop
    started; the first of these to fail ends it with that error.  There
    is an [n] such that the first [n] sources went through all of this
    without error, one after the other.  If there is a source at position
    [n], it is the one that failed: [Load] returns its error, the world is
    the one its failed step left (what the earlier sources merged and
    registered stays), and [Resolve] was not called.  If there is none,
    all sources were processed, [Resolve] was called exactly once, after
    them, and [Load] returns what it returned: its error, or nil. *)
Theorem Load_spec w :
  let srcs := sources (cfg w) in
  let '(r, w') := run Load w in
  (∀ src w0, run (Load_source src) w0 = Load_source_outcome src w0) ∧
  ∃ n,
    (∀ i src, i < n → srcs !! i = Some src →
       (Load_source_outcome src (sources_loaded (take i srcs) w)).1 = None) ∧
    let w_n := sources_loaded (take n srcs) w in
    match srcs !! n with
    | Some src =>
        ∃ err, Load_source_outcome src w_n = (Some err, w') ∧
               r = Some err ∧
               count_Resolve (new_events w w') = 0
    | None =>
        n = length srcs ∧
        let '(rd, e) := reader_Resolve (reader (cfg w_n)) in
        let w_r := emit EvResolve (with_cfg (set_reader rd) w_n) in
        r = e ∧
        w' = match e with
             | Some _ =>
                 emit (EvLog Error "failed to resolve config source: %v") w_r
             | None => w_r
             end ∧
        count_Resolve (new_events w w') = 1
    end.
Proof.
  cbn zeta. unfold Load. cbn -[for_each_return].
  pose proof (Load_loop (sources (cfg w)) w) as H.
  rewrite run_bind.
  destruct (run (for_each_return _ _) w) as [r0 w0].
  destruct H as (n & Hbefore & H).
  destruct (sources_loaded_trace (take n (sources (cfg w))) w)
    as (evs & Hevs & Hc).
  destruct (sources (cfg w) !! n) as [src|] eqn:Hn.
  - destruct H as (err & Hsrc & ->). cbn.
    split; [apply Load_source_eq|]. exists n. split; [done|].
    rewrite Hn. exists err. repeat split; [done|].
    destruct (Load_source_trace src (sources_loaded (take n (sources (cfg w))) w))
      as (evs' & Hevs' & Hc').
    rewrite Hsrc in Hevs'. cbn in Hevs'.
    rewrite (new_events_app w w0 (evs ++ evs')).
    + rewrite count_Resolve_app. lia.
    + by rewrite Hevs', Hevs, <- app_assoc.
  - destruct H as (-> & -> & ->). cbn.
    destruct (reader_Resolve _) as [rd [e|]] eqn:Hres; cbn.
    + split; [apply Load_source_eq|]. exists (length (sources (cfg w))).
      split; [done|]. rewrite Hn, Hres. repeat split.
      rewrite (new_events_app w _ (evs ++ [EvResolve; EvLog Error "failed to resolve config source: %v"])).
      * rewrite count_Resolve_app, Hc. done.
      * cbn. rewrite Hevs, <- !app_assoc. done.
    + split; [apply Load_source_eq|]. exists (length (sources (cfg w))).
      split; [done|]. rewrite Hn, Hres. repeat split.
      rewrite (new_events_app w _ (evs ++ [EvResolve])).
      * rewrite count_Resolve_app, Hc. done.
      * cbn. by rewrite Hevs, <- app_assoc.
Qed.

(** ** The scan of the cache *)

Lemma observer_calls_app K l1 l2 :
  observer_calls K (l1 ++ l2) = observer_calls K l1 ++ observer_calls K l2.
Proof. apply filter_app. Qed.

Lemma observes_ne K o k v x : k ≠ K → observes K (EvObserver o k v x) = false.
Proof. intros Hk. cbn. by apply bool_decide_eq_false_2. Qed.

Lemma observes_eq K o v x : observes K (EvObserver o K v x) = true.
Proof. cbn. by apply bool_decide_eq_true_2. Qed.

Lemma heap_Load_app_l h h' v :
  v < length h → heap_Load (h ++ h') v = heap_Load h v.
Proof. intros Hv. unfold heap_Load. by rewrite lookup_app_l. Qed.

Lemma heap_Load_app_new h o :
  heap_Load (h ++ [o]) (length h) = obj_Load o.
Proof. unfold heap_Load. by rewrite lookup_app_r, Nat.sub_diag. Qed.

Lemma heap_Load_Store_ne h v x l :
  v ≠ l → heap_Load (heap_Store v x h) l = heap_Load h l.
Proof.
  intros Hne. unfold heap_Load, heap_Store.
  by rewrite list_lookup_alter_ne.
Qed.

Lemma length_heap_Store h v x : length (heap_Store v x h) = length h.
Proof. apply length_alter. Qed.

(** What one visit of [Range] does, read off the code: the world after
    the function of lines 86-96 ran on the entry [(k, v)]. *)
Lemma watch_entry_eq k v w :
  run (watch_entry (k, v)) w =
  (tt,
   match reader_Value k (reader (cfg w)) with
   | None => w
   | Some p =>
       let w1 := with_heap (λ h, h ++ [atomicValue p]) w in
       let vl := heap_Load (heap w1) v in
       if bool_decide (reflect_TypeOf p = reflect_TypeOf vl)
          && negb (reflect_DeepEqual p vl)
       then
         let w2 := with_heap (heap_Store v p) w1 in
         match observers (cfg w) !! k with
         | Some o => emit (EvObserver o k v (heap_Load (heap w2) v)) w2
         | None => w2
         end
       else w1
   end).
Proof.
  cbn. destruct (reader_Value k (reader (cfg w))) as [p|]; cbn; [|done].
  rewrite ?heap_Load_app_new. cbn.
  destruct (bool_decide _); cbn; [|done].
  rewrite ?heap_Load_app_new. cbn.
  destruct (reflect_DeepEqual _ _); cbn; [done|].
  rewrite ?heap_Load_app_new. cbn.
  destruct (observers (cfg w) !! k); done.
Qed.

Lemma watch_entry_other K l k v w :
  k ≠ K → v ≠ l → l < length (heap w) →
  let w' := (run (watch_entry (k, v)) w).2 in
  cfg w' = cfg w ∧ mem w' = mem w ∧
  heap_Load (heap w') l = heap_Load (heap w) l ∧
  length (heap w) ≤ length (heap w') ∧
  ∃ evs, trace w' = trace w ++ evs ∧ observer_calls K evs = [].
Proof.
  intros Hk Hv Hl. rewrite watch_entry_eq. cbn [snd].
  destruct (reader_Value k (reader (cfg w))) as [p|].
  2:{ repeat split; [lia|]. exists []. by rewrite app_nil_r. }
  cbn zeta. destruct (_ && _).
  - destruct (observers (cfg w) !! k) as [o|]; cbn;
      rewrite heap_Load_Store_ne, heap_Load_app_l, length_heap_Store, length_app by done;
      (repeat split; [lia|]).
    + eexists [_]. split; [done|]. unfold observer_calls.
      rewrite filter_cons_False; [done|]. by rewrite observes_ne.
    + exists []. by rewrite app_nil_r.
  - cbn. rewrite heap_Load_app_l, length_app by done.
    repeat split; [lia|]. exists []. by rewrite app_nil_r.
Qed.

Lemma scan_others K l L w :
  (∀ k v, (k, v) ∈ L → k ≠ K ∧ v ≠ l) → l < length (heap w) →
  let w' := (run (for_each L watch_entry) w).2 in
  cfg w' = cfg w ∧ mem w' = mem w ∧
  heap_Load (heap w') l = heap_Load (heap w) l ∧
  length (heap w) ≤ length (heap w') ∧
  ∃ evs, trace w' = trace w ++ evs ∧ observer_calls K evs = [].
Proof.
  revert w. induction L as [|[k v] L IH]; intros w HL Hl.
  - cbn. repeat split; [lia|]. exists []. by rewrite app_nil_r.
  - rewrite run_for_each_cons.
    destruct (HL k v) as [Hk Hv]; [left|].
    destruct (watch_entry_other K l k v w Hk Hv Hl)
      as (Hcfg & Hmem & Hload & Hlen & evs1 & Htr1 & Hc1).
    cbn zeta in *.
    destruct (IH (run (watch_entry (k, v)) w).2)
      as (Hcfg' & Hmem' & Hload' & Hlen' & evs2 & Htr2 & Hc2).
    { intros k' v' Hin. apply HL. by right. }
    { lia. }
    cbn zeta. rewrite Hcfg', Hmem', Hload'. repeat split; try done; [lia|].
    exists (evs1 ++ evs2). rewrite Htr2, Htr1, <- app_assoc. split; [done|].
    by rewrite observer_calls_app, Hc1, Hc2.
Qed.

Lemma watch_entry_self K l w :
  l < length (heap w) →
  let w' := (run (watch_entry (K, l)) w).2 in
  let old := heap_Load (heap w) l in
  cfg w' = cfg w ∧ mem w' = mem w ∧
  length (heap w) ≤ length (heap w') ∧
  ∃ evs, trace w' = trace w ++ evs ∧
    match reader_Value K (reader (cfg w)) with
    | Some fresh =>
        if bool_decide (reflect_TypeOf fresh = reflect_TypeOf old)
           && negb (reflect_DeepEqual fresh old)
        then
          heap_Load (heap w') l = fresh ∧
          observer_calls K evs =
            match observers (cfg w) !! K with
            | Some o => [EvObserver o K l fresh]
            | None => []
            end
        else heap_Load (heap w') l = old ∧ observer_calls K evs = []
    | None => heap_Load (heap w') l = old ∧ observer_calls K evs = []
    end.
Proof.
  intros Hl. rewrite watch_entry_eq. cbn [snd].
  destruct (reader_Value K (reader (cfg w))) as [p|].
  2:{ repeat split; [lia|]. exists []. by rewrite app_nil_r. }
  cbn zeta. cbn [with_heap heap]. rewrite heap_Load_app_l by done.
  destruct (_ && _) eqn:Hcond.
  - assert (Hstored : heap_Load (heap_Store l p (heap w ++ [atomicValue p])) l = p).
    { unfold heap_Load, heap_Store. rewrite list_lookup_alter_eq.
      rewrite lookup_app_l by done.
      destruct (lookup_lt_is_Some_2 (heap w) l Hl) as [o Ho].
      apply andb_true_iff in Hcond as [Hty Hde].
      apply bool_decide_eq_true in Hty.
      unfold heap_Load in Hty, Hde. rewrite Ho in Hty, Hde |- *.
      destruct o as [q|e]; cbn in *; [done|].
      destruct p; [done|]. done. }
    destruct (observers (cfg w) !! K) as [o|]; cbn;
      rewrite length_heap_Store, length_app;
      (repeat split; [lia|]).
    + eexists [_]. split; [done|]. rewrite Hstored. split; [done|].
      unfold observer_calls. rewrite filter_cons_True; [done|].
      apply observes_eq.
    + exists []. by rewrite app_nil_r.
  - cbn. rewrite heap_Load_app_l, length_app by done.
    repeat split; [lia|]. exists []. by rewrite app_nil_r.
Qed.

Lemma watch_scan_entry K l w :
  cache_wf w →
  cached (cfg w) !! K = Some l →
  let w' := (run watch_scan w).2 in
  let old := heap_Load (heap w) l in
  cfg w' = cfg w ∧ mem w' = mem w ∧
  ∃ evs, trace w' = trace w ++ evs ∧
    match reader_Value K (reader (cfg w)) with
    | Some fresh =>
        if bool_decide (reflect_TypeOf fresh = reflect_TypeOf old)
           && negb (reflect_DeepEqual fresh old)
        then
          heap_Load (heap w') l = fresh ∧
          observer_calls K evs =
            match observers (cfg w) !! K with
            | Some o => [EvObserver o K l fresh]
            | None => []
            end
        else heap_Load (heap w') l = old ∧ observer_calls K evs = []
    | None => heap_Load (heap w') l = old ∧ observer_calls K evs = []
    end.
Proof.
  intros [Halloc Hinj] HK. unfold watch_scan. cbn -[for_each].
  pose proof (range_order_perm (cached (cfg w))) as Hperm.
  assert (HKl : (K, l) ∈ range_order (cached (cfg w))).
  { rewrite Hperm. by apply elem_of_map_to_list. }
  assert (Hnodup : NoDup (range_order (cached (cfg w))).*1).
  { rewrite Hperm. apply NoDup_fst_map_to_list. }
  assert (Hin : ∀ k v, (k, v) ∈ range_order (cached (cfg w)) →
                       cached (cfg w) !! k = Some v).
  { intros k v. rewrite Hperm. apply elem_of_map_to_list. }
  apply list_elem_of_split in HKl as (L1 & L2 & HL).
  rewrite HL in Hnodup, Hin |- *. clear HL Hperm.
  rewrite fmap_app, fmap_cons in Hnodup. cbn in Hnodup.
  apply NoDup_app in Hnodup as (_ & Hdisj & Hnodup2).
  apply NoDup_cons in Hnodup2 as [HK2 _].
  assert (Hothers : ∀ k v, (k, v) ∈ L1 ∨ (k, v) ∈ L2 → k ≠ K ∧ v ≠ l).
  { intros k v Hkv.
    assert (k ≠ K) as Hk.
    { intros ->. destruct Hkv as [Hkv|Hkv].
      - apply (Hdisj K); [|left]. apply list_elem_of_fmap. by exists (K, v).
      - apply HK2. apply list_elem_of_fmap. by exists (K, v). }
    split; [done|]. intros ->. apply Hk. apply (Hinj k K l); [|done].
    apply Hin. rewrite elem_of_app, elem_of_cons. tauto. }
  assert (Hl : l < length (heap w)) by eauto.
  rewrite run_for_each_app, run_for_each_cons.
  destruct (scan_others K l L1 w) as (Hc1 & Hm1 & Hl1 & Hn1 & evs1 & Ht1 & Ho1);
    [by eauto|done|]. cbn zeta in *.
  set (w1 := (run (for_each L1 watch_entry) w).2) in *.
  destruct (watch_entry_self K l w1) as (Hc2 & Hm2 & Hn2 & evs2 & Ht2 & Hself);
    [lia|]. cbn zeta in *.
  set (w2 := (run (watch_entry (K, l)) w1).2) in *.
  destruct (scan_others K l L2 w2) as (Hc3 & Hm3 & Hl3 & Hn3 & evs3 & Ht3 & Ho3);
    [by eauto|lia|]. cbn zeta in *.
  set (w3 := (run (for_each L2 watch_entry) w2).2) in *.
  split; [congruence|]. split; [congruence|].
  exists (evs1 ++ evs2 ++ evs3).
  split; [by rewrite Ht3, Ht2, Ht1, <- !app_assoc|].
  rewrite !observer_calls_app, Ho1, Ho3, app_nil_r, Hl3. cbn [app].
  rewrite Hc1, Hl1 in Hself. done.
Qed.

(** C1.  A reconciliation cycle: [Next()] gave the batch [kvs], [Merge]
    and [Resolve] succeeded (leaving the reader in state [rd2]) and the
    cache was scanned.  The cache and the registry of observers are the
    same maps afterwards.  For a key [K] cached as the value [l], whose
    payload was [old]: if the reader has [K], with a payload [fresh] of
    the same dynamic type as [old] and not deeply equal to it, then [l]
    now holds [fresh] and, among the events of the cycle, the calls of an
    observer for [K] are exactly one call of the registered observer,
    with [K], [l] and the payload [fresh] (none if no observer is
    registered); in every other case (the reader does not have [K], the
    types differ, or the payloads are deeply equal) [l] still holds [old]
    and no observer is called for [K]. *)
Theorem watch_cycle_entry kvs rd1 rd2 K l w :
  cache_wf w →
  cached (cfg w) !! K = Some l →
  reader_Merge kvs (reader (cfg w)) = (rd1, None) →
  reader_Resolve rd1 = (rd2, None) →
  let w' := (run (watch_on [Ok kvs]) w).2 in
  let old := heap_Load (heap w) l in
  let calls := observer_calls K (new_events w w') in
  cached (cfg w') = cached (cfg w) ∧
  observers (cfg w') = observers (cfg w) ∧
  match reader_Value K rd2 with
  | Some fresh =>
      if bool_decide (reflect_TypeOf fresh = reflect_TypeOf old)
         && negb (reflect_DeepEqual fresh old)
      then
        heap_Load (heap w') l = fresh ∧
        calls = match observers (cfg w) !! K with
                | Some o => [EvObserver o K l fresh]
                | None => []
                end
      else heap_Load (heap w') l = old ∧ calls = []
  | None => heap_Load (heap w') l = old ∧ calls = []
  end.
Proof.
  intros Hwf HK Hmerge Hresolve. rewrite watch_on_cons, Hmerge, Hresolve.
  cbn zeta. cbn [watch_on]. change (run (mret Blocked) ?x) with (Blocked, x).
  cbn [snd].
  set (w2 := emit EvResolve _).
  destruct (watch_scan_entry K l w2) as (Hcfg & _ & evs & Htr & Hentry);
    [done|done|]. cbn zeta in Hentry.
  destruct (run watch_scan w2) as [u w3]. cbn [snd] in *.
  rewrite Hcfg. split; [done|]. split; [done|].
  rewrite (new_events_app w _ ([EvMerge kvs; EvResolve] ++ evs)).
  2:{ rewrite Htr. cbn. by rewrite <- !app_assoc. }
  rewrite observer_calls_app. cbn [app]. exact Hentry.
Qed.

(** ** Which instructions a method can execute *)

Lemma all_instr_bind P {A B} (m : prog A) (f : A → prog B) :
  all_instr P m → (∀ a, all_instr P (f a)) → all_instr P (bind m f).
Proof.
  intros Hm Hf. induction m as [a|X i k IH]; cbn in *; [apply Hf|].
  destruct Hm as [Hi Hk]. split; [done|]. intros x. apply IH, Hk.
Qed.

Lemma all_instr_for_each P {A} (l : list A) body :
  (∀ x, all_instr P (body x)) → all_instr P (for_each l body).
Proof.
  intros Hbody. induction l as [|x l IH]; [done|].
  cbn [for_each]. by apply all_instr_bind.
Qed.

Lemma all_instr_for_each_return P {A R} (l : list A)
    (body : A → prog (option R)) :
  (∀ x, all_instr P (body x)) → all_instr P (for_each_return l body).
Proof.
  intros Hbody. induction l as [|x l IH]; [done|].
  cbn [for_each_return]. apply all_instr_bind; [done|].
  intros [e|]; done.
Qed.

Lemma watch_entry_instrs P kv :
  (∀ X (i : instr X),
     match i with
     | ReaderValue _ | ValueLoad _ | ValueStore _ _
     | ObserversLoad _ | CallObserver _ _ _ => P X i
     | _ => True
     end) →
  all_instr P (watch_entry kv).
Proof.
  intros HP. destruct kv as [k v]. cbn.
  split; [apply (HP _ (ReaderValue k))|]. intros [n|]; [|done]. cbn.
  split; [apply (HP _ (ValueLoad n))|]. intros nl.
  split; [apply (HP _ (ValueLoad v))|]. intros vl.
  destruct (bool_decide _); [|done]. cbn.
  split; [apply (HP _ (ValueLoad n))|]. intros nl2.
  split; [apply (HP _ (ValueLoad v))|]. intros vl2.
  destruct (negb _); [|done]. cbn.
  split; [apply (HP _ (ValueLoad n))|]. intros nl3.
  split; [apply (HP _ (ValueStore v nl3))|]. intros _.
  split; [apply (HP _ (ObserversLoad k))|]. intros [o|]; [|done]. cbn.
  split; [apply (HP _ (CallObserver o k v))|]. done.
Qed.

Lemma watch_on_no_CachedStore nexts : all_instr not_CachedStore (watch_on nexts).
Proof.
  induction nexts as [|r nexts IH]; [done|]. cbn [watch_on].
  destruct (errors_Is _ _); [done|].
  destruct r as [kvs|e]; [|done].
  cbn -[watch_scan]. split; [done|]. intros [e1|]; [done|].
  cbn -[watch_scan]. split; [done|]. intros [e2|]; [done|].
  apply all_instr_bind; [|done]. cbn. split; [done|]. intros entries.
  apply all_instr_for_each. intros kv. apply watch_entry_instrs.
  by intros X [].
Qed.

Lemma Load_no_CachedStore : all_instr not_CachedStore Load.
Proof.
  cbn. split; [done|]. intros srcs. apply all_instr_bind.
  - apply all_instr_for_each_return. intros src. cbn. split; [done|].
    intros [kvs|e]; [|done]. apply all_instr_bind.
    + by apply all_instr_for_each.
    + intros _. cbn. split; [done|]. intros [e|]; [done|]. cbn.
      split; [done|]. intros [x|e]; done.
  - intros [e|]; [done|]. cbn. split; [done|]. by intros [e|].
Qed.

Lemma Scan_no_CachedStore vs : all_instr not_CachedStore (Scan vs).
Proof.
  cbn. split; [done|]. intros [data|e]; [|done].
  by apply all_instr_for_each_return.
Qed.

Lemma Close_no_CachedStore : all_instr not_CachedStore Close.
Proof.
  cbn. split; [done|]. intros ws. by apply all_instr_for_each_return.
Qed.

(** A method that executes no [c.cached.Store] leaves the cache the map
    it was, and frees nothing. *)
Lemma no_CachedStore_run {A} (p : prog A) w :
  all_instr not_CachedStore p →
  cached (cfg (run p w).2) = cached (cfg w) ∧
  length (heap w) ≤ length (heap (run p w).2).
Proof.
  revert w. induction p as [a|X i k IH]; intros w Hp; [done|].
  destruct Hp as [Hi Hk]. cbn [run].
  assert (cached (cfg (exec i w).2) = cached (cfg w) ∧
          length (heap w) ≤ length (heap (exec i w).2)) as [Hc Hl].
  { destruct i; cbn in *; try done.
    - by destruct (reader_Merge _ _).
    - by destruct (reader_Resolve _).
    - destruct (reader_Value _ _); cbn; [|done]. rewrite length_app. split; [done|lia].
    - by rewrite length_heap_Store.
    - rewrite length_app. split; [done|lia].
    - by destruct (unmarshalJSON _ _). }
  destruct (exec i w) as [x w1]. cbn in *.
  destruct (IH x w1 (Hk x)) as [Hc' Hl']. split; [congruence|lia].
Qed.

(** ** The cache when calls do not overlap *)

Lemma cache_wf_init srcs r m : cache_wf (init_world srcs r m).
Proof. split; intros *; cbn; by rewrite lookup_empty. Qed.

Lemma cache_wf_same w w' :
  cached (cfg w') = cached (cfg w) →
  length (heap w) ≤ length (heap w') →
  cache_wf w → cache_wf w'.
Proof.
  intros Hc Hl [Halloc Hinj]. split; rewrite Hc; [|done].
  intros k l Hk. specialize (Halloc k l Hk). lia.
Qed.

Lemma Value_cache_wf key w : cache_wf w → cache_wf (run (Value key) w).2.
Proof.
  intros [Halloc Hinj]. unfold Value. cbn.
  destruct (cached (cfg w) !! key) as [c|] eqn:Hc; cbn; [done|].
  destruct (reader_Value key (reader (cfg w))) as [p|]; cbn.
  - split; cbn.
    + intros k l. rewrite length_app, lookup_insert. case_decide.
      * intros [= <-]. cbn. lia.
      * intros Hk. specialize (Halloc k l Hk). lia.
    + intros k1 k2 l. rewrite !lookup_insert.
      repeat case_decide; subst; try done.
      * intros [= <-] Hk2. specialize (Halloc _ _ Hk2). lia.
      * intros Hk1 [= <-]. specialize (Halloc _ _ Hk1). lia.
      * apply Hinj.
  - apply (cache_wf_same w); cbn; [done| |done]. rewrite length_app. lia.
Qed.

(** Entries of the cache survive a [Value] call that runs alone. *)
Lemma Value_cached_stable key w K l :
  cached (cfg w) !! K = Some l →
  cached (cfg (run (Value key) w).2) !! K = Some l.
Proof.
  intros HK. unfold Value. cbn.
  destruct (cached (cfg w) !! key) as [c|] eqn:Hc; cbn; [done|].
  destruct (reader_Value key (reader (cfg w))) as [p|]; cbn; [|done].
  rewrite lookup_insert_ne; [done|]. congruence.
Qed.

Lemma Watch_after_Value key o w :
  cached (cfg (run (Watch key o) w).2) = cached (cfg (run (Value key) w).2) ∧
  heap (run (Watch key o) w).2 = heap (run (Value key) w).2.
Proof.
  unfold Watch. rewrite run_bind.
  destruct (run (Value key) w) as [v w1]. cbn.
  destruct (heap_Load (heap w1) v); done.
Qed.

Lemma thread_run c w :
  (run (thread c) w).2 =
  match c with
  | call_Load => (run Load w).2
  | call_Value key => (run (Value key) w).2
  | call_Scan vs => (run (Scan vs) w).2
  | call_Watch key o => (run (Watch key o) w).2
  | call_Close => (run Close w).2
  | call_watch x => (run (watch x) w).2
  end.
Proof. destruct c; unfold thread; by rewrite run_bind. Qed.

Lemma thread_cached_stable c w K l :
  cached (cfg w) !! K = Some l →
  cached (cfg (run (thread c) w).2) !! K = Some l.
Proof.
  intros HK. rewrite thread_run. destruct c.
  - by rewrite (proj1 (no_CachedStore_run Load w Load_no_CachedStore)).
  - by apply Value_cached_stable.
  - by rewrite (proj1 (no_CachedStore_run _ w (Scan_no_CachedStore vs))).
  - rewrite (proj1 (Watch_after_Value key o w)). by apply Value_cached_stable.
  - by rewrite (proj1 (no_CachedStore_run Close w Close_no_CachedStore)).
  - unfold watch.
    by rewrite (proj1 (no_CachedStore_run _ w (watch_on_no_CachedStore (w_next w0)))).
Qed.

Lemma thread_cache_wf c w : cache_wf w → cache_wf (run (thread c) w).2.
Proof.
  intros Hwf. rewrite thread_run. destruct c.
  - destruct (no_CachedStore_run Load w Load_no_CachedStore).
    by apply (cache_wf_same w).
  - by apply Value_cache_wf.
  - destruct (no_CachedStore_run _ w (Scan_no_CachedStore vs)).
    by apply (cache_wf_same w).
  - destruct (Watch_after_Value key o w) as [Hc Hh].
    apply (cache_wf_same (run (Value key) w).2); [done|by rewrite Hh|].
    by apply Value_cache_wf.
  - destruct (no_CachedStore_run Close w Close_no_CachedStore).
    by apply (cache_wf_same w).
  - unfold watch.
    destruct (no_CachedStore_run _ w (watch_on_no_CachedStore (w_next w0))).
    by apply (cache_wf_same w).
Qed.

(** When the calls run one after the other, an entry of the cache is
    never replaced, and the cache stays well formed. *)
Lemma run_calls_cached_stable cs w K l :
  cached (cfg w) !! K = Some l →
  cached (cfg (run_calls cs w)) !! K = Some l.
Proof.
  revert w. induction cs as [|c cs IH]; intros w HK; [done|].
  unfold run_calls in *. cbn [foldl]. by apply IH, thread_cached_stable.
Qed.

Lemma run_calls_cache_wf cs w : cache_wf w → cache_wf (run_calls cs w).
Proof.
  revert w. induction cs as [|c cs IH]; intros w Hwf; [done|].
  unfold run_calls in *. cbn [foldl]. by apply IH, thread_cache_wf.
Qed.

(** ** Overlapping calls *)

Lemma later_refl w : later w w.
Proof. by split. Qed.

Lemma later_trans w1 w2 w3 : later w1 w2 → later w2 w3 → later w1 w3.
Proof. intros [Hd1 He1] [Hd2 He2]. split; [set_solver|eauto]. Qed.

Lemma later_same w w' :
  cached (cfg w') = cached (cfg w) → heap w' = heap w → later w w'.
Proof. intros Hc Hh. split; by rewrite ?Hc, ?Hh. Qed.

Ltac case_exec :=
  repeat match goal with
    | |- context [reader_Merge ?a ?b] => destruct (reader_Merge a b)
    | |- context [reader_Resolve ?a] => destruct (reader_Resolve a)
    | |- context [reader_Value ?a ?b] => destruct (reader_Value a b)
    | |- context [unmarshalJSON ?a ?b] => destruct (unmarshalJSON a b)
    end; cbn.

Lemma exec_later {X} (i : instr X) w : later w (exec i w).2.
Proof.
  destruct i; cbn; case_exec; try (by apply later_same).
  - split; cbn; [|done]. rewrite dom_insert_L. set_solver.
  - split; cbn; [done|]. intros l e Hl. apply lookup_app_l_Some, Hl.
  - split; cbn; [done|]. intros l e Hl. unfold heap_Store.
    destruct (decide (l = v)) as [->|Hne].
    + by rewrite list_lookup_alter_eq, Hl.
    + by rewrite list_lookup_alter_ne.
  - split; cbn; [done|]. intros l e Hl. apply lookup_app_l_Some, Hl.
Qed.

Lemma registry_inv_emit e w :
  registry_inv w → observed_key_cached w e → registry_inv (emit e w).
Proof.
  intros [Hd Htr] He. split; [done|]. cbn. apply Forall_app. split; [done|].
  by constructor.
Qed.

Lemma registry_inv_same w w' :
  observers (cfg w') = observers (cfg w) →
  cached (cfg w') = cached (cfg w) →
  trace w' = trace w →
  registry_inv w → registry_inv w'.
Proof.
  intros Ho Hc Ht [Hd Htr]. split; [by rewrite Ho, Hc|].
  rewrite Ht. eapply Forall_impl; [done|]. intros []; cbn; by rewrite ?Hc.
Qed.

Lemma exec_registry_inv {X} (i : instr X) w :
  registry_inv w → instr_ok i w → registry_inv (exec i w).2.
Proof.
  intros Hinv Hok.
  destruct i; cbn in *; case_exec;
    try (by apply (registry_inv_same w));
    try (apply registry_inv_emit; [by apply (registry_inv_same w)|done]).
  - destruct Hinv as [Hd Htr]. split; cbn.
    + rewrite dom_insert_L. set_solver.
    + eapply Forall_impl; [done|]. intros []; cbn; try done.
      rewrite dom_insert_L. apply elem_of_union_r.
  - destruct Hinv as [Hd Htr]. split; cbn; [|done].
    rewrite dom_insert_L. apply union_least; [|done].
    by apply singleton_subseteq_l.
Qed.

Lemma safe_later {A} (Q : A → world → Prop) p w w' :
  safe Q p w → later w w' → safe Q p w'.
Proof.
  intros Hp Hl. destruct p; cbn in *; intros w'' Hl';
    apply Hp; by eapply later_trans.
Qed.

Lemma safe_weaken {A} (Q Q' : A → world → Prop) p w :
  (∀ a w', Q a w' → Q' a w') → safe Q p w → safe Q' p w.
Proof.
  intros HQ. revert w. induction p as [a|X i k IH]; intros w Hp; cbn in *.
  - intros w' Hl. by apply HQ, Hp.
  - intros w' Hl. destruct (Hp w' Hl) as [Hok Hk]. split; [done|]. by apply IH.
Qed.

Lemma safe_track {A} (Q : A → world → Prop) p w :
  safe Q p w → safe (λ a w', Q a w' ∧ later w w') p w.
Proof.
  revert w. induction p as [a|X i k IH]; intros w Hp; cbn in *.
  - intros w' Hl. split; [by apply Hp|done].
  - intros w' Hl. destruct (Hp w' Hl) as [Hok Hk]. split; [done|].
    eapply safe_weaken; [|apply IH, Hk]. cbn. intros a w'' [HQ Hl''].
    split; [done|]. eapply later_trans; [done|].
    eapply later_trans; [apply (exec_later i w')|done].
Qed.

Lemma safe_bind {A B} (Q : A → world → Prop) (Q' : B → world → Prop)
    (m : prog A) (f : A → prog B) w :
  safe Q m w → (∀ a w', Q a w' → safe Q' (f a) w') → safe Q' (bind m f) w.
Proof.
  intros Hm Hf. revert w Hm. induction m as [a|X i k IH]; intros w Hm; cbn in *.
  - apply Hf, Hm, later_refl.
  - intros w' Hl. destruct (Hm w' Hl) as [Hok Hk]. split; [done|]. by apply IH.
Qed.

(** A method that neither registers nor calls an observer is safe. *)
Lemma not_observing_safe {A} (p : prog A) w :
  all_instr not_observing p → safe (λ _ _, True) p w.
Proof.
  revert w. induction p as [a|X i k IH]; intros w Hp; cbn in *; [done|].
  destruct Hp as [Hi Hk]. intros w' Hl. split; [|by apply IH].
  by destruct i.
Qed.

Lemma Load_not_observing : all_instr not_observing Load.
Proof.
  cbn. split; [done|]. intros srcs. apply all_instr_bind.
  - apply all_instr_for_each_return. intros src. cbn. split; [done|].
    intros [kvs|e]; [|done]. apply all_instr_bind.
    + by apply all_instr_for_each.
    + intros _. cbn. split; [done|]. intros [e|]; [done|]. cbn.
      split; [done|]. intros [x|e]; done.
  - intros [e|]; [done|]. cbn. split; [done|]. by intros [e|].
Qed.

Lemma Scan_not_observing vs : all_instr not_observing (Scan vs).
Proof.
  cbn. split; [done|]. intros [data|e]; [|done].
  by apply all_instr_for_each_return.
Qed.

Lemma Close_not_observing : all_instr not_observing Close.
Proof.
  cbn. split; [done|]. intros ws. by apply all_instr_for_each_return.
Qed.

(** After [Value(key)], in any later world: the key is cached, unless
    what was returned is an error value. *)
Lemma Value_safe key w :
  safe (λ v w', key ∈ dom (cached (cfg w')) ∨
                ∃ e, heap w' !! v = Some (errValue e))
       (Value key) w.
Proof.
  unfold Value. cbn. intros w1 _. split; [done|].
  destruct (cached (cfg w1) !! key) as [c|] eqn:Hc; cbn.
  - intros w2 [Hd _]. left. apply Hd, elem_of_dom. eauto.
  - intros w2 _. split; [done|].
    destruct (reader_Value key (reader (cfg w2))) as [p|]; cbn.
    + intros w3 _. split; [done|]. intros w4 [Hd _]. left. apply Hd. cbn.
      rewrite dom_insert_L. set_solver.
    + intros w3 _. split; [done|]. intros w4 [_ He]. right.
      exists ErrNotFound. apply He. cbn.
      by rewrite lookup_app_r, Nat.sub_diag.
Qed.

Lemma Watch_safe key o w : safe (λ _ _, True) (Watch key o) w.
Proof.
  unfold Watch. eapply safe_bind; [apply Value_safe|].
  intros v w1 HQ. cbn. intros w2 Hl12. split; [done|].
  destruct (heap_Load (heap w2) v) as [x|] eqn:Hload; cbn; [|done].
  intros w3 Hl23. split; [|done].
  destruct HQ as [Hkey|[e He]].
  - by apply (proj1 Hl23), (proj1 Hl12).
  - apply (proj2 Hl12) in He. unfold heap_Load in Hload. by rewrite He in Hload.
Qed.

Lemma watch_entry_safe k v w :
  k ∈ dom (cached (cfg w)) → safe (λ _ _, True) (watch_entry (k, v)) w.
Proof.
  intros Hk. cbn. intros w1 Hl1. split; [done|].
  assert (Hk1 : k ∈ dom (cached (cfg (exec (ReaderValue k) w1).2))).
  { apply (proj1 (exec_later (ReaderValue k) w1)), (proj1 Hl1), Hk. }
  cbn in Hk1 |- *.
  destruct (reader_Value k (reader (cfg w1))) as [p|]; cbn in *; [|done].
  intros w2 Hl2. split; [done|]. intros w3 Hl3. split; [done|].
  destruct (bool_decide _); cbn; [|done].
  intros w4 Hl4. split; [done|]. intros w5 Hl5. split; [done|].
  destruct (negb _); cbn; [|done].
  intros w6 Hl6. split; [done|]. intros w7 Hl7. split; [done|].
  intros w8 Hl8. split; [done|].
  destruct (observers (cfg w8) !! k) as [o|]; cbn; [|done].
  intros w9 Hl9. split; [|done].
  apply (proj1 Hl9), (proj1 Hl8), (proj1 Hl7), (proj1 Hl6), (proj1 Hl5),
    (proj1 Hl4), (proj1 Hl3), (proj1 Hl2), Hk1.
Qed.

Lemma scan_safe L w :
  (∀ k v, (k, v) ∈ L → k ∈ dom (cached (cfg w))) →
  safe (λ _ _, True) (for_each L watch_entry) w.
Proof.
  revert w. induction L as [|[k v] L IH]; intros w HL; [done|].
  cbn [for_each]. eapply safe_bind.
  - apply safe_track, watch_entry_safe, (HL k v). left.
  - cbn. intros _ w' [_ Hl]. apply IH. intros k' v' Hin.
    apply (proj1 Hl), (HL k' v'). by right.
Qed.

Lemma watch_scan_safe w : safe (λ _ _, True) watch_scan w.
Proof.
  unfold watch_scan. cbn -[for_each]. intros w1 _. split; [done|].
  apply scan_safe. intros k v. rewrite (range_order_perm (cached (cfg w1))).
  rewrite elem_of_map_to_list, elem_of_dom. eauto.
Qed.

Lemma watch_on_safe nexts w : safe (λ _ _, True) (watch_on nexts) w.
Proof.
  revert w. induction nexts as [|r nexts IH]; intros w; [done|].
  cbn [watch_on]. destruct (errors_Is _ _).
  { cbn. intros w1 _. done. }
  destruct r as [kvs|e].
  - cbn -[watch_scan]. intros w1 _. split; [done|].
    destruct (reader_Merge kvs (reader (cfg w1))) as [rd1 [e1|]];
      cbn -[watch_scan].
    { intros w2 _. split; [done|]. apply IH. }
    intros w2 _. split; [done|].
    destruct (reader_Resolve (reader (cfg w2))) as [rd2 [e2|]];
      cbn -[watch_scan].
    { intros w3 _. split; [done|]. apply IH. }
    eapply safe_bind; [apply watch_scan_safe|]. intros _ w3 _. apply IH.
  - cbn. intros w1 _. split; [done|]. intros w2 _. split; [done|]. apply IH.
Qed.

Lemma thread_safe c w : safe (λ _ _, True) (thread c) w.
Proof.
  destruct c; unfold thread;
    (eapply (safe_bind (λ _ _, True)); [|by intros; cbn]).
  - apply not_observing_safe, Load_not_observing.
  - eapply safe_weaken; [|apply Value_safe]. done.
  - apply not_observing_safe, Scan_not_observing.
  - apply Watch_safe.
  - apply not_observing_safe, Close_not_observing.
  - apply watch_on_safe.
Qed.

Lemma step_thread_inv {A} i (ps : list (prog A)) w :
  registry_inv w → Forall (λ p, safe (λ _ _, True) p w) ps →
  registry_inv (step_thread i ps w).2 ∧
  Forall (λ p, safe (λ _ _, True) p (step_thread i ps w).2)
         (step_thread i ps w).1.
Proof.
  intros Hinv Hps. unfold step_thread.
  destruct (ps !! i) as [[a|X ins k]|] eqn:Hi; [done| |done].
  pose proof (Forall_lookup_1 _ _ _ _ Hps Hi) as Hp. cbn in Hp.
  destruct (Hp w (later_refl w)) as [Hok Hk].
  pose proof (exec_later ins w) as Hl.
  pose proof (exec_registry_inv ins w Hinv Hok) as Hinv'.
  destruct (exec ins w) as [x w1]. cbn in *. split; [done|].
  - apply Forall_insert; [|done].
    eapply Forall_impl; [done|]. intros p Hsafe. cbn in Hsafe.
    by apply (safe_later _ p w w1).
Qed.

Lemma sched_inv {A} order (ps : list (prog A)) w :
  registry_inv w → Forall (λ p, safe (λ _ _, True) p w) ps →
  registry_inv (sched order ps w).2.
Proof.
  revert ps w. induction order as [|i order IH]; intros ps w Hinv Hps; [done|].
  cbn [sched]. destruct (step_thread_inv i ps w Hinv Hps) as [Hinv' Hps'].
  destruct (step_thread i ps w) as [ps' w']. by apply IH.
Qed.

(** C9.  A [Watch(key, o)] that returns nil leaves [key] in the cache
    (its [Value(key)] call found it there or put it there).  And in every
    world that calls of the orchestrator's methods and reconciliation
    loops can reach from a new orchestrator, however their instructions
    interleave: every key with a registered observer is in the cache, and
    every call of an observer that was made was made for a key of the
    cache (the scan only visits cached keys, and keys never leave the
    cache). *)
Theorem observers_only_for_cached_keys key o w0 calls order srcs r m :
  match run (Watch key o) w0 with
  | (None, w1) => key ∈ dom (cached (cfg w1))
  | (Some _, _) => True
  end ∧
  let w := (sched order (thread <$> calls) (init_world srcs r m)).2 in
  dom (observers (cfg w)) ⊆ dom (cached (cfg w)) ∧
  ∀ o' k v x, EvObserver o' k v x ∈ trace w → k ∈ dom (cached (cfg w)).
Proof.
  split.
  - pose proof (Value_contract_holds key w0) as HV. unfold Value_contract in HV.
    unfold Watch. rewrite run_bind.
    destruct (run (Value key) w0) as [v w1]. cbn.
    destruct (heap_Load (heap w1) v) eqn:Hload; cbn; [|done].
    destruct (cached (cfg w0) !! key) eqn:Hc.
    + destruct HV as [-> ->]. apply elem_of_dom. eauto.
    + destruct HV as (_ & _ & _ & HV).
      destruct (reader_Value key (reader (cfg w0))).
      * destruct HV as (_ & _ & ->). cbn. rewrite dom_insert_L.
        apply elem_of_union_l. by apply elem_of_singleton.
      * destruct HV as (_ & _ & Hnil & _). congruence.
  - cbn zeta.
    assert (Hinv : registry_inv
              (sched order (thread <$> calls) (init_world srcs r m)).2).
    { apply sched_inv.
      - split; [done|constructor].
      - apply Forall_fmap, Forall_forall. intros c _. apply thread_safe. }
    destruct Hinv as [Hd Htr]. split; [done|].
    intros o' k v x Hin. rewrite Forall_forall in Htr. apply (Htr _ Hin).
Qed.

(** * Further properties of the methods *)

(** ** [Value], called again *)

(** X1.  Once [Value(key)] found the key (in the cache or in the reader),
    the next [Value(key)] returns the same object and changes nothing,
    whatever state the reader is in by then: the reader is not asked
    again. *)
Theorem Value_memoized key w r' :
  is_Some (cached (cfg w) !! key) ∨
  is_Some (reader_Value key (reader (cfg w))) →
  let '(v1, w1) := run (Value key) w in
  let w1' := with_cfg (set_reader r') w1 in
  run (Value key) w1' = (v1, w1').
Proof.
  intros Hfound. unfold Value. cbn.
  destruct (cached (cfg w) !! key) as [c|] eqn:Hc; cbn.
  - by rewrite Hc.
  - destruct Hfound as [[? [=]]|[p Hp]]. rewrite Hp. cbn.
    by rewrite lookup_insert_eq.
Qed.

(** X2.  A key that neither the cache nor the reader has: every
    [Value(key)] allocates a new error value, so two calls return two
    different objects, and the orchestrator is left as it was (nothing is
    cached).  When the reader has the key later on, the next [Value(key)]
    returns a new live value holding the reader's payload and caches it;
    the error value handed out before stays an error value. *)
Theorem Value_miss_then_hit key w r' p :
  cached (cfg w) !! key = None →
  reader_Value key (reader (cfg w)) = None →
  reader_Value key r' = Some p →
  let '(v1, w1) := run (Value key) w in
  let '(v2, w2) := run (Value key) w1 in
  let '(v3, w3) := run (Value key) (with_cfg (set_reader r') w2) in
  v1 ≠ v2 ∧ cfg w2 = cfg w ∧
  heap w2 = heap w ++ [errValue ErrNotFound; errValue ErrNotFound] ∧
  v3 ≠ v1 ∧ v3 ≠ v2 ∧
  heap w3 !! v3 = Some (atomicValue p) ∧
  cached (cfg w3) !! key = Some v3 ∧
  heap w3 !! v1 = Some (errValue ErrNotFound) ∧
  heap w3 !! v2 = Some (errValue ErrNotFound).
Proof.
  intros Hc Hr Hr'. unfold Value. cbn. rewrite Hc. cbn. rewrite Hr. cbn.
  rewrite Hc. cbn. rewrite Hr. cbn. rewrite Hc. cbn. rewrite Hr'. cbn.
  rewrite !length_app. cbn. rewrite <- !app_assoc. cbn.
  repeat split; try lia.
  - rewrite lookup_app_r by lia. by replace (_ - _) with 2 by lia.
  - apply lookup_insert_eq.
  - by rewrite lookup_app_r, Nat.sub_diag.
  - rewrite lookup_app_r by lia. by replace (_ - _) with 1 by lia.
Qed.
(** ** [Watch], by what the cache and the reader hold *)

(** X3.  For a key that is cached with a payload that is not nil,
    [Watch(key, o)] succeeds without asking the reader: it returns nil and
    registers [o] whatever the reader holds by now, also when the reader
    no longer has the key.  Nothing else changes; in particular no
    observer is called at registration. *)
Theorem Watch_cached_key key o l d w r' :
  cached (cfg w) !! key = Some l →
  heap_Load (heap w) l = Some d →
  let w0 := with_cfg (set_reader r') w in
  run (Watch key o) w0
  = (None, with_cfg (λ c, set_observers (<[key := o]> (observers c)) c) w0).
Proof.
  intros Hc Hl. unfold Watch, Value. cbn. rewrite Hc. cbn. by rewrite Hl.
Qed.

(** X4.  The registration gate.  For a key that neither the cache nor
    the reader has, [Watch(key, o)] returns [ErrNotFound], registers
    nothing and caches nothing.  If the reader has the key with a payload
    [d] afterwards, the same call returns nil: the key is now cached as a
    live value holding [d], and [o] is its observer.  Neither call makes
    a call on a collaborator that the trace records. *)
Theorem Watch_missing_then_present key o w r' d :
  cached (cfg w) !! key = None →
  reader_Value key (reader (cfg w)) = None →
  reader_Value key r' = Some (Some d) →
  let '(e1, w1) := run (Watch key o) w in
  let '(e2, w2) := run (Watch key o) (with_cfg (set_reader r') w1) in
  e1 = Some ErrNotFound ∧ cfg w1 = cfg w ∧
  e2 = None ∧
  observers (cfg w2) = <[key := o]> (observers (cfg w)) ∧
  (∃ v, cached (cfg w2) = <[key := v]> (cached (cfg w)) ∧
        heap w !! v = None ∧
        heap w2 !! v = Some (atomicValue (Some d))) ∧
  trace w2 = trace w.
Proof.
  intros Hc Hr Hr'. unfold Watch, Value. cbn. rewrite Hc. cbn. rewrite Hr. cbn.
  rewrite heap_Load_app_new. cbn. rewrite Hc. cbn. rewrite Hr'. cbn.
  rewrite heap_Load_app_new. cbn. repeat split.
  exists (length (heap w ++ [errValue ErrNotFound])). repeat split.
  - apply lookup_ge_None. rewrite length_app. lia.
  - by rewrite lookup_app_r, Nat.sub_diag.
Qed.
(** ** [Load] and [Close], further *)

Lemma spawned_app l1 l2 : spawned (l1 ++ l2) = spawned l1 ++ spawned l2.
Proof. apply omap_app. Qed.

Lemma debug_logged_spawned kvs w :
  ∃ evs, trace (debug_logged kvs w) = trace w ++ evs ∧ spawned evs = [].
Proof.
  revert w. induction kvs as [|kv kvs IH]; intros w.
  - exists []. by rewrite app_nil_r.
  - unfold debug_logged in *. cbn [foldl].
    destruct (IH (emit (EvLog Debug "config loaded: %s format: %s") w))
      as (evs & -> & Hs).
    eexists (_ :: evs). cbn [emit trace]. rewrite <- app_assoc.
    split; [done|]. cbn. exact Hs.
Qed.

Lemma debug_logged_heap kvs w :
  heap (debug_logged kvs w) = heap w ∧ mem (debug_logged kvs w) = mem w.
Proof.
  revert w. induction kvs as [|kv kvs IH]; intros w; [done|].
  unfold debug_logged in *. cbn [foldl].
  by rewrite (proj1 (IH _)), (proj2 (IH _)).
Qed.

(** A source that goes through: its watcher is appended and its loop
    started, and nothing else of the orchestrator but the reader moves. *)
Lemma Load_source_ok src w w' :
  Load_source_outcome src w = (None, w') →
  ∃ x evs,
    src_Watch src = Ok x ∧
    watchers (cfg w') = watchers (cfg w) ++ [x] ∧
    trace w' = trace w ++ evs ∧ spawned evs = [x] ∧
    cached (cfg w') = cached (cfg w) ∧
    observers (cfg w') = observers (cfg w) ∧
    sources (cfg w') = sources (cfg w) ∧
    heap w' = heap w ∧ mem w' = mem w.
Proof.
  unfold Load_source_outcome.
  destruct (src_Load src) as [kvs|err]; [|done].
  destruct (debug_logged_spawned kvs (emit (EvSourceLoad src) w))
    as (evs & Hevs & Hs).
  pose proof (debug_logged_cfg kvs (emit (EvSourceLoad src) w)) as Hcfg.
  pose proof (debug_logged_heap kvs (emit (EvSourceLoad src) w)) as Hheap.
  cbn in Hheap.
  destruct Hheap as [Hheap Hmem].
  destruct (reader_Merge kvs (reader (cfg w))) as [rd [e|]]; [done|].
  destruct (src_Watch src) as [x|err]; [|done].
  intros [= <-]. exists x. cbn [emit with_cfg trace cfg heap mem].
  rewrite Hevs, Hcfg, Hheap, Hmem. cbn.
  eexists (_ :: evs ++ [_; _; _]). rewrite <- !app_assoc. cbn.
  repeat split. unfold spawned in *. by rewrite omap_app, Hs.
Qed.

Lemma Load_sources_ok srcs w :
  (run (for_each_return srcs Load_source) w).1 = None →
  let w' := (run (for_each_return srcs Load_source) w).2 in
  ∃ ws evs,
    Forall2 (λ src x, src_Watch src = Ok x) srcs ws ∧
    watchers (cfg w') = watchers (cfg w) ++ ws ∧
    trace w' = trace w ++ evs ∧ spawned evs = ws ∧
    cached (cfg w') = cached (cfg w) ∧
    observers (cfg w') = observers (cfg w) ∧
    sources (cfg w') = sources (cfg w) ∧
    heap w' = heap w ∧ mem w' = mem w.
Proof.
  revert w. induction srcs as [|src srcs IH]; intros w.
  - intros _. exists [], []. cbn. rewrite !app_nil_r. repeat split. constructor.
  - rewrite run_for_each_return_cons, Load_source_eq.
    destruct (Load_source_outcome src w) as [[err|] w1] eqn:Hsrc; [done|].
    intros Hok. cbn zeta.
    destruct (Load_source_ok src w w1 Hsrc)
      as (x & evs1 & Hx & Hws1 & Htr1 & Hs1 & Hc1 & Ho1 & Hsrc1 & Hh1 & Hm1).
    destruct (IH w1 Hok)
      as (ws & evs2 & Hws & Hws2 & Htr2 & Hs2 & Hc2 & Ho2 & Hsrc2 & Hh2 & Hm2).
    exists (x :: ws), (evs1 ++ evs2).
    rewrite Hws2, Htr2, Hc2, Ho2, Hsrc2, Hh2, Hm2, Hws1, Htr1, <- !app_assoc.
    repeat split; try done.
    + by constructor.
    + by rewrite spawned_app, Hs1, Hs2.
Qed.

Lemma Load_result_None w :
  (run Load w).1 = None →
  (run (for_each_return (sources (cfg w)) Load_source) w).1 = None ∧
  ∃ rd,
    reader_Resolve
      (reader (cfg (run (for_each_return (sources (cfg w)) Load_source) w).2))
    = (rd, None) ∧
    (run Load w).2
    = emit EvResolve
        (with_cfg (set_reader rd)
           (run (for_each_return (sources (cfg w)) Load_source) w).2).
Proof.
  unfold Load. cbn -[for_each_return]. rewrite run_bind.
  destruct (run (for_each_return _ _) w) as [[e|] w0]; cbn; [done|].
  destruct (reader_Resolve (reader (cfg w0))) as [rd [e|]]; cbn; [done|].
  eauto.
Qed.

Lemma Load_ok_watchers w :
  (run Load w).1 = None →
  let w' := (run Load w).2 in
  ∃ ws,
    Forall2 (λ src x, src_Watch src = Ok x) (sources (cfg w)) ws ∧
    watchers (cfg w') = watchers (cfg w) ++ ws ∧
    spawned (new_events w w') = ws.
Proof.
  intros Hok. destruct (Load_result_None w Hok) as (Hsrcs & rd & _ & Hw').
  cbn zeta. rewrite Hw'.
  destruct (Load_sources_ok _ w Hsrcs)
    as (ws & evs & Hws & Hws2 & Htr & Hs & _).
  exists ws. cbn. repeat split; [done..|].
  rewrite (new_events_app w _ (evs ++ [EvResolve])).
  - rewrite spawned_app, Hs. cbn. by rewrite app_nil_r.
  - cbn. by rewrite Htr, <- app_assoc.
Qed.

(** X5.  A [Load] that returns nil obtained a watcher from every
    configured source, in order, appended exactly these watchers to
    [c.watchers], and started exactly one reconciliation loop for each,
    in that order. *)
Theorem Load_success_watchers w :
  (run Load w).1 = None →
  let w' := (run Load w).2 in
  ∃ ws,
    Forall2 (λ src x, src_Watch src = Ok x) (sources (cfg w)) ws ∧
    watchers (cfg w') = watchers (cfg w) ++ ws ∧
    spawned (new_events w w') = ws.
Proof. apply Load_ok_watchers. Qed.
Lemma keeps_state_exec {X} (i : instr X) w :
  keeps_state X i →
  cached (cfg (exec i w).2) = cached (cfg w) ∧
  observers (cfg (exec i w).2) = observers (cfg w) ∧
  heap (exec i w).2 = heap w ∧ mem (exec i w).2 = mem w ∧
  watchers (cfg w) `prefix_of` watchers (cfg (exec i w).2) ∧
  ∃ evs, trace (exec i w).2 = trace w ++ evs ∧
         filter (λ e, is_observer_call e = true) evs = [].
Proof.
  intros Hi.
  destruct i; cbn in *; try done; case_exec;
    repeat split; try done; try (by apply prefix_app_r);
    try (by exists []; rewrite app_nil_r);
    by eexists [_].
Qed.

(** A method made of such instructions leaves the cache, the registry,
    the values and the targets as they were, and only appends to the
    watchers. *)
Lemma keeps_state_run {A} (p : prog A) w :
  all_instr keeps_state p →
  cached (cfg (run p w).2) = cached (cfg w) ∧
  observers (cfg (run p w).2) = observers (cfg w) ∧
  heap (run p w).2 = heap w ∧ mem (run p w).2 = mem w ∧
  watchers (cfg w) `prefix_of` watchers (cfg (run p w).2) ∧
  ∃ evs, trace (run p w).2 = trace w ++ evs ∧
         filter (λ e, is_observer_call e = true) evs = [].
Proof.
  revert w. induction p as [a|X i k IH]; intros w Hp.
  - cbn. repeat split; try done. exists []. by rewrite app_nil_r.
  - destruct Hp as [Hi Hk]. cbn [run].
    destruct (keeps_state_exec i w Hi)
      as (Hc & Ho & Hh & Hm & Hw & evs1 & Ht & Hf).
    destruct (exec i w) as [x w1]. cbn in *.
    destruct (IH x w1 (Hk x)) as (Hc' & Ho' & Hh' & Hm' & Hw' & evs2 & Ht' & Hf').
    rewrite Hc', Ho', Hh', Hm'. repeat split; try done.
    + by etrans.
    + exists (evs1 ++ evs2). rewrite Ht', Ht, <- app_assoc. split; [done|].
      by rewrite filter_app, Hf, Hf'.
Qed.

Lemma Load_keeps_state : all_instr keeps_state Load.
Proof.
  cbn. split; [done|]. intros srcs. apply all_instr_bind.
  - apply all_instr_for_each_return. intros src. cbn. split; [done|].
    intros [kvs|e]; [|done]. apply all_instr_bind.
    + by apply all_instr_for_each.
    + intros _. cbn. split; [done|]. intros [e|]; [done|]. cbn.
      split; [done|]. intros [x|e]; done.
  - intros [e|]; [done|]. cbn. split; [done|]. by intros [e|].
Qed.

(** X6.  Whatever [Load] returns, it leaves the cache, the values the
    cache points to, the registry of observers and the [Scan] targets
    exactly as they were, calls no observer, and only appends to
    [c.watchers].  So a value cached before [Load] keeps its payload
    through [Load], even when [Load] merged a new payload for its key:
    only a reconciliation cycle refreshes it. *)
Theorem Load_leaves_cache w :
  let w' := (run Load w).2 in
  cached (cfg w') = cached (cfg w) ∧
  observers (cfg w') = observers (cfg w) ∧
  heap w' = heap w ∧ mem w' = mem w ∧
  watchers (cfg w) `prefix_of` watchers (cfg w') ∧
  filter (λ e, is_observer_call e = true) (new_events w w') = [].
Proof.
  cbn zeta.
  destruct (keeps_state_run Load w Load_keeps_state)
    as (Hc & Ho & Hh & Hm & Hw & evs & Ht & Hf).
  repeat split; try done. by rewrite (new_events_app w _ evs).
Qed.


(** X8.  [Load] then [Close] on an orchestrator that tracked no watcher
    before: when [Load] returned nil, [Close] calls [Stop] on the
    watchers that the sources' [Watch()] returned, in the order of the
    sources, up to and including the first whose [Stop] fails, and
    returns that error, or nil if none fails. *)
Theorem Load_then_Close w :
  (run Load w).1 = None →
  watchers (cfg w) = [] →
  let w1 := (run Load w).2 in
  let '(r, w2) := run Close w1 in
  ∃ ws,
    Forall2 (λ src x, src_Watch src = Ok x) (sources (cfg w)) ws ∧
    match list_find (λ x, is_Some (w_Stop x)) ws with
    | Some (i, x) =>
        r = w_Stop x ∧ new_events w1 w2 = EvStop <$> take (S i) ws
    | None => r = None ∧ new_events w1 w2 = EvStop <$> ws
    end.
Proof.
  intros Hok Hnone. cbn zeta.
  destruct (Load_ok_watchers w Hok) as (ws & Hws & Hwatch & _).
  cbn zeta in Hwatch. rewrite Hnone in Hwatch. cbn [app] in Hwatch.
  remember (run Load w).2 as w1 eqn:Hw1. clear Hw1.
  unfold Close. cbn -[for_each_return]. rewrite Hwatch.
  pose proof (Close_loop ws w1) as H.
  destruct (run _ w1) as [r w2]. destruct H as (_ & _ & _ & H).
  exists ws. split; [done|].
  destruct (list_find _ ws) as [[i x]|]; destruct H as [-> Ht];
    by rewrite (new_events_app _ _ _ Ht).
Qed.
(** ** The loop over many outcomes of [Next()] *)

(** X9.  Outcomes that come after a cancellation are never consumed:
    the loop run on [n1 ++ c :: n2], with [c] a cancellation, does what
    it does on [n1 ++ [c]], whatever [n2] holds. *)
Theorem watch_stops_at_cancellation n1 c n2 w :
  is_cancel c = true →
  run (watch_on (n1 ++ c :: n2)) w = run (watch_on (n1 ++ [c])) w.
Proof.
  intros Hc. revert w. induction n1 as [|r n1 IH]; intros w.
  - cbn [app]. rewrite !watch_on_cons.
    destruct c as [kvs|e]; [done|]. unfold is_cancel in Hc. cbn in Hc.
    by rewrite Hc.
  - rewrite <- !app_comm_cons, !watch_on_cons.
    destruct r as [kvs|e].
    + destruct (reader_Merge kvs (reader (cfg w))) as [rd1 [e1|]];
        cbn zeta; [apply IH|].
      destruct (reader_Resolve rd1) as [rd2 [e2|]]; apply IH.
    + destruct (error_is e context_Canceled); [done|apply IH].
Qed.

(** X10.  The loop composes: as long as no outcome of [n1] is a
    cancellation, running it on [n1 ++ n2] is running it on [n1] and then
    on [n2] from the world that left. *)
Theorem watch_on_app n1 n2 w :
  existsb is_cancel n1 = false →
  run (watch_on (n1 ++ n2)) w = run (watch_on n2) (run (watch_on n1) w).2.
Proof.
  revert w. induction n1 as [|r n1 IH]; intros w Hn1; [done|].
  cbn [existsb] in Hn1. apply orb_false_iff in Hn1 as [Hr Hn1].
  rewrite <- app_comm_cons, !watch_on_cons.
  destruct r as [kvs|e].
  - destruct (reader_Merge kvs (reader (cfg w))) as [rd1 [e1|]];
      cbn zeta; [by apply IH|].
    destruct (reader_Resolve rd1) as [rd2 [e2|]]; by apply IH.
  - unfold is_cancel in Hr. cbn in Hr. rewrite Hr. by apply IH.
Qed.

(** X11.  A watcher that only reports errors other than cancellation:
    for each of them the loop sleeps one second and logs, in that order,
    and does nothing else: the reader, the cache, the values and the
    registry are untouched, and the loop has not returned. *)
Theorem watch_transient_errors nexts w :
  forallb is_transient nexts = true →
  run (watch_on nexts) w
  = (Blocked,
     mkWorld (cfg w) (heap w) (mem w)
       (trace w ++
        mjoin (replicate (length nexts)
                 [EvSleep time_Second;
                  EvLog Error "failed to watch next config: %v"]))).
Proof.
  revert w. induction nexts as [|r nexts IH]; intros w Hall.
  - cbn. rewrite app_nil_r. by destruct w.
  - cbn [forallb] in Hall. apply andb_true_iff in Hall as [Hr Hall].
    rewrite watch_on_cons. destruct r as [kvs|e]; [done|]. cbn in Hr.
    apply negb_true_iff in Hr. rewrite Hr, IH by done.
    cbn. by rewrite <- !app_assoc.
Qed.
Lemma watch_entry_frame k v l w :
  l < length (heap w) → v ≠ l →
  let w' := (run (watch_entry (k, v)) w).2 in
  cfg w' = cfg w ∧ mem w' = mem w ∧
  heap w' !! l = heap w !! l ∧ length (heap w) ≤ length (heap w').
Proof.
  intros Hl Hv. rewrite watch_entry_eq. cbn [snd].
  destruct (reader_Value k (reader (cfg w))) as [p|]; [|done].
  cbn zeta. destruct (_ && _).
  - assert (heap (with_heap (heap_Store v p)
                    (with_heap (λ h, h ++ [atomicValue p]) w)) !! l
            = heap w !! l ∧
            length (heap w) ≤
            length (heap (with_heap (heap_Store v p)
                            (with_heap (λ h, h ++ [atomicValue p]) w))))
      as [Hh Hlen].
    { cbn. unfold heap_Store. rewrite list_lookup_alter_ne by done.
      rewrite lookup_app_l by done. rewrite length_alter, length_app.
      split; [done|lia]. }
    destruct (observers (cfg w) !! k); cbn in *; by rewrite Hh.
  - cbn. rewrite lookup_app_l by done. rewrite length_app. repeat split. lia.
Qed.

Lemma scan_frame L l w :
  l < length (heap w) → (∀ k v, (k, v) ∈ L → v ≠ l) →
  let w' := (run (for_each L watch_entry) w).2 in
  cfg w' = cfg w ∧ mem w' = mem w ∧
  heap w' !! l = heap w !! l ∧ length (heap w) ≤ length (heap w').
Proof.
  revert w. induction L as [|[k v] L IH]; intros w Hl HL; [done|].
  rewrite run_for_each_cons.
  destruct (watch_entry_frame k v l w Hl) as (Hc & Hm & Hh & Hlen).
  { apply (HL k). left. }
  cbn zeta in *.
  destruct (IH (run (watch_entry (k, v)) w).2) as (Hc' & Hm' & Hh' & Hlen').
  { lia. }
  { intros k' v' Hin. apply (HL k'). by right. }
  cbn zeta in *. rewrite Hc', Hm', Hh'. repeat split; try done. lia.
Qed.

Lemma watch_scan_frame l w :
  l < length (heap w) → (∀ k, cached (cfg w) !! k ≠ Some l) →
  cfg (run watch_scan w).2 = cfg w ∧
  mem (run watch_scan w).2 = mem w ∧
  heap (run watch_scan w).2 !! l = heap w !! l ∧
  length (heap w) ≤ length (heap (run watch_scan w).2).
Proof.
  intros Hl Hnot. unfold watch_scan. cbn -[for_each].
  apply scan_frame; [done|].
  intros k v. rewrite (range_order_perm (cached (cfg w))).
  rewrite elem_of_map_to_list. intros Hkv ->. by apply (Hnot k).
Qed.

Ltac use_IH IH :=
  match goal with
  | |- context [run (watch_on _) ?w1] =>
      let H := fresh in
      assert (H := IH w1); cbn in H; apply H; done
  end.

(** X12.  The loop writes into cached values only.  An object that the
    cache does not point to (an error value, a value that lost its place
    in the cache) is never stored into, however many cycles run; and the
    loop leaves the cache, the registry, the watchers and the [Scan]
    targets as they were. *)
Theorem watch_stores_into_cached_only nexts l w :
  l < length (heap w) →
  (∀ k, cached (cfg w) !! k ≠ Some l) →
  let w' := (run (watch_on nexts) w).2 in
  heap w' !! l = heap w !! l ∧
  cached (cfg w') = cached (cfg w) ∧
  observers (cfg w') = observers (cfg w) ∧
  watchers (cfg w') = watchers (cfg w) ∧
  mem w' = mem w.
Proof.
  revert w. induction nexts as [|r nexts IH]; intros w Hl Hnot; [done|].
  cbn zeta. rewrite watch_on_cons. destruct r as [kvs|e].
  - destruct (reader_Merge kvs (reader (cfg w))) as [rd1 [e1|]]; cbn zeta.
    { use_IH IH. }
    destruct (reader_Resolve rd1) as [rd2 [e2|]].
    { use_IH IH. }
    set (w2 := emit EvResolve _).
    assert (Hscan := watch_scan_frame l w2 Hl Hnot).
    destruct Hscan as (Hc & Hm & Hh & Hlen).
    destruct (IH (run watch_scan w2).2) as (Hh' & Hc' & Ho' & Hw' & Hm').
    { assert (length (heap w2) = length (heap w)) by done. lia. }
    { by rewrite Hc. }
    cbn zeta in *. by rewrite Hh', Hc', Ho', Hw', Hm', Hc, Hm, Hh.
  - destruct (error_is e context_Canceled); [done|].
    use_IH IH.
Qed.
(** ** Cycles, further *)

Lemma reflect_DeepEqual_refl x :
  (∀ d, deep_equal d d = true) → reflect_DeepEqual x x = true.
Proof.
  intros Hrefl. destruct x as [a|]; cbn; [|done].
  by rewrite decide_True.
Qed.

Lemma scan_events L w :
  ∃ evs, trace (run (for_each L watch_entry) w).2 = trace w ++ evs ∧
    Forall (λ e, match e with
                 | EvObserver _ k _ _ => k ∈ L.*1
                 | _ => False
                 end) evs.
Proof.
  revert w. induction L as [|[k v] L IH]; intros w.
  - exists []. by rewrite app_nil_r.
  - rewrite run_for_each_cons.
    destruct (IH (run (watch_entry (k, v)) w).2) as (evs2 & -> & Hevs2).
    assert (∃ evs1, trace (run (watch_entry (k, v)) w).2 = trace w ++ evs1 ∧
              Forall (λ e, match e with
                           | EvObserver _ k' _ _ => k' = k
                           | _ => False
                           end) evs1) as (evs1 & -> & Hevs1).
    { rewrite watch_entry_eq. cbn [snd].
      destruct (reader_Value k (reader (cfg w))) as [p|].
      2:{ exists []. by rewrite app_nil_r. }
      cbn zeta. destruct (_ && _).
      2:{ exists []. by rewrite app_nil_r. }
      destruct (observers (cfg w) !! k) as [o|].
      2:{ exists []. by rewrite app_nil_r. }
      eexists [_]. split; [done|]. by constructor. }
    exists (evs1 ++ evs2). rewrite <- app_assoc. split; [done|].
    apply Forall_app. split.
    + eapply Forall_impl; [done|]. intros [] He; try done. subst. cbn. left.
    + eapply Forall_impl; [done|]. intros [] He; try done. cbn. by right.
Qed.

Lemma watch_scan_run w :
  (run watch_scan w).2
  = (run (for_each (range_order (cached (cfg w))) watch_entry) w).2.
Proof. done. Qed.

Lemma watch_scan_no_CachedStore : all_instr not_CachedStore watch_scan.
Proof.
  cbn. split; [done|]. intros entries. apply all_instr_for_each.
  intros kv. apply watch_entry_instrs. by intros X [].
Qed.

Lemma watch_scan_cache_wf w : cache_wf w → cache_wf (run watch_scan w).2.
Proof.
  destruct (no_CachedStore_run watch_scan w watch_scan_no_CachedStore).
  by apply cache_wf_same.
Qed.

(** X13.  No second notification.  When [reflect.DeepEqual] holds
    between every payload and itself, a scan of the cache that follows
    another, the reader unchanged in between, stores nothing and calls no
    observer: what the first scan stored is what the reader holds. *)
Theorem second_scan_is_quiet w :
  cache_wf w →
  (∀ d, deep_equal d d = true) →
  let w1 := (run watch_scan w).2 in
  let w2 := (run watch_scan w1).2 in
  (∀ K l, cached (cfg w) !! K = Some l →
          heap_Load (heap w2) l = heap_Load (heap w1) l) ∧
  new_events w1 w2 = [].
Proof.
  intros Hwf Hrefl. cbn zeta.
  pose proof (watch_scan_cache_wf w Hwf) as Hwf1.
  assert (Hcfg : cfg (run watch_scan w).2 = cfg w).
  { unfold watch_scan. cbn -[for_each].
    destruct (range_order (cached (cfg w))) as [|[k v] L] eqn:HL; [done|].
    rewrite <- HL. clear HL.
    generalize (range_order (cached (cfg w))). intros L'. clear.
    revert w. induction L' as [|[k v] L' IH]; intros w; [done|].
    rewrite run_for_each_cons, IH, watch_entry_eq. cbn [snd].
    destruct (reader_Value _ _); [|done]. cbn zeta. destruct (_ && _); [|done].
    by destruct (observers _ !! _). }
  assert (Hkey : ∀ K l, cached (cfg w) !! K = Some l →
            heap_Load (heap (run watch_scan (run watch_scan w).2).2) l
            = heap_Load (heap (run watch_scan w).2) l ∧
            observer_calls K
              (new_events (run watch_scan w).2
                 (run watch_scan (run watch_scan w).2).2) = []).
  { intros K l HK.
    destruct (watch_scan_entry K l w Hwf HK) as (_ & _ & evs1 & _ & H1).
    assert (HK1 : cached (cfg (run watch_scan w).2) !! K = Some l)
      by (by rewrite Hcfg).
    destruct (watch_scan_entry K l _ Hwf1 HK1) as (_ & _ & evs2 & Ht2 & H2).
    cbn zeta in *. rewrite (new_events_app _ _ _ Ht2). rewrite Hcfg in H2.
    destruct (reader_Value K (reader (cfg w))) as [fresh|]; [|done].
    destruct (bool_decide _ && negb _) eqn:Hcond0 in H1.
    - destruct H1 as [Hl1 _]. rewrite Hl1 in H2 |- *.
      rewrite reflect_DeepEqual_refl in H2 by done.
      rewrite andb_false_r in H2. done.
    - destruct H1 as [Hl1 _]. rewrite Hl1 in H2 |- *.
      by rewrite Hcond0 in H2. }
  split; [intros K l HK; apply (proj1 (Hkey K l HK))|].
  destruct (scan_events (range_order (cached (cfg (run watch_scan w).2)))
              (run watch_scan w).2) as (evs & Ht & Hevs).
  rewrite <- watch_scan_run in Ht.
  assert (Hnil : evs = []).
  { destruct evs as [|e evs]; [done|]. exfalso.
    apply Forall_cons in Hevs as [He _].
    destruct e as [| | | | | | |o k v x| | |]; try done.
    apply list_elem_of_fmap in He as ([k' l] & -> & Hin). cbn in *.
    rewrite (range_order_perm _), elem_of_map_to_list, Hcfg in Hin.
    destruct (Hkey k' l Hin) as [_ Hcalls].
    rewrite (new_events_app _ _ _ Ht) in Hcalls.
    unfold observer_calls in Hcalls.
    rewrite filter_cons_True in Hcalls by apply observes_eq. done. }
  subst evs. by rewrite (new_events_app _ _ [] Ht).
Qed.
Lemma cycle_run kvs rd1 rd2 w :
  reader_Merge kvs (reader (cfg w)) = (rd1, None) →
  reader_Resolve rd1 = (rd2, None) →
  (run (watch_on [Ok kvs]) w).2
  = (run watch_scan
       (emit EvResolve
          (with_cfg (set_reader rd2)
             (emit (EvMerge kvs) (with_cfg (set_reader rd1) w))))).2.
Proof. intros Hm Hr. by rewrite watch_on_cons, Hm, Hr. Qed.

Lemma cycle_entry kvs rd1 rd2 K l w :
  cache_wf w →
  cached (cfg w) !! K = Some l →
  reader_Merge kvs (reader (cfg w)) = (rd1, None) →
  reader_Resolve rd1 = (rd2, None) →
  let w' := (run (watch_on [Ok kvs]) w).2 in
  let old := heap_Load (heap w) l in
  cfg w' = set_reader rd2 (cfg w) ∧
  match reader_Value K rd2 with
  | Some fresh =>
      if bool_decide (reflect_TypeOf fresh = reflect_TypeOf old)
         && negb (reflect_DeepEqual fresh old)
      then
        heap_Load (heap w') l = fresh ∧
        observer_calls K (new_events w w') =
          match observers (cfg w) !! K with
          | Some o => [EvObserver o K l fresh]
          | None => []
          end
      else heap_Load (heap w') l = old ∧ observer_calls K (new_events w w') = []
  | None => heap_Load (heap w') l = old ∧ observer_calls K (new_events w w') = []
  end.
Proof.
  intros Hwf HK Hm Hr. cbn zeta. rewrite (cycle_run kvs rd1 rd2 w Hm Hr).
  set (w2 := emit EvResolve _).
  destruct (watch_scan_entry K l w2) as (Hcfg & _ & evs & Htr & Hentry);
    [done|done|]. cbn zeta in Hentry.
  destruct (run watch_scan w2) as [u w3]. cbn [snd] in *.
  split; [by rewrite Hcfg|].
  rewrite (new_events_app w _ ([EvMerge kvs; EvResolve] ++ evs)).
  2:{ rewrite Htr. cbn. by rewrite <- !app_assoc. }
  rewrite observer_calls_app. cbn [app]. exact Hentry.
Qed.

(** X14.  A key that disappears from the reader is not evicted and
    nobody is told: after the cycle, [Value(key)] still returns the
    cached object, with the payload it had, and no observer was called
    for the key. *)
Theorem vanished_key_stays_cached kvs rd1 rd2 K l w :
  cache_wf w →
  cached (cfg w) !! K = Some l →
  reader_Merge kvs (reader (cfg w)) = (rd1, None) →
  reader_Resolve rd1 = (rd2, None) →
  reader_Value K rd2 = None →
  let w' := (run (watch_on [Ok kvs]) w).2 in
  run (Value K) w' = (l, w') ∧
  heap_Load (heap w') l = heap_Load (heap w) l ∧
  observer_calls K (new_events w w') = [].
Proof.
  intros Hwf HK Hm Hr Hgone. cbn zeta.
  destruct (cycle_entry kvs rd1 rd2 K l w Hwf HK Hm Hr) as [Hcfg H].
  cbn zeta in *. rewrite Hgone in H.
  remember (run (watch_on [Ok kvs]) w).2 as w' eqn:Hw'. clear Hw'.
  split; [|done]. unfold Value. cbn. rewrite Hcfg. cbn. by rewrite HK.
Qed.

Lemma Watch_ok key o w :
  (run (Watch key o) w).1 = None →
  (run (Watch key o) w).2
  = with_cfg (λ c, set_observers (<[key := o]> (observers c)) c)
      (run (Value key) w).2 ∧
  cached (cfg (run (Value key) w).2) !! key = Some (run (Value key) w).1.
Proof.
  pose proof (Value_contract_holds key w) as HV. unfold Value_contract in HV.
  unfold Watch. rewrite run_bind.
  destruct (run (Value key) w) as [v w1]. cbn.
  destruct (heap_Load (heap w1) v) eqn:Hload; cbn; [|done].
  intros _. split; [done|].
  destruct (cached (cfg w) !! key) eqn:Hc.
  - by destruct HV as [-> ->].
  - destruct HV as (_ & _ & _ & HV).
    destruct (reader_Value key (reader (cfg w))).
    + destruct HV as (_ & _ & ->). cbn. apply lookup_insert_eq.
    + destruct HV as (_ & _ & Hnil & _). congruence.
Qed.

(** X15.  From registration to notification.  After a [Watch(key, o)]
    that returned nil, a cycle in which the reader comes to hold for
    [key] a payload of the same type as the cached one and not deeply
    equal to it stores that payload in the value [Value(key)] returned
    and calls [o], once, with that key and that value. *)
Theorem Watch_then_update key o kvs rd1 rd2 fresh w :
  cache_wf w →
  (run (Watch key o) w).1 = None →
  let v := (run (Value key) w).1 in
  let w1 := (run (Watch key o) w).2 in
  reader_Merge kvs (reader (cfg w1)) = (rd1, None) →
  reader_Resolve rd1 = (rd2, None) →
  reader_Value key rd2 = Some fresh →
  reflect_TypeOf fresh = reflect_TypeOf (heap_Load (heap w1) v) →
  reflect_DeepEqual fresh (heap_Load (heap w1) v) = false →
  let w2 := (run (watch_on [Ok kvs]) w1).2 in
  heap_Load (heap w2) v = fresh ∧
  observer_calls key (new_events w1 w2) = [EvObserver o key v fresh].
Proof.
  intros Hwf Hok. cbn zeta. destruct (Watch_ok key o w Hok) as [Hw1 Hv].
  pose proof (Value_cache_wf key w Hwf) as Hwf1.
  rewrite Hw1. set (wv := (run (Value key) w).2) in *.
  set (v := (run (Value key) w).1) in *.
  set (w1 := with_cfg _ wv).
  intros Hm Hr Hfresh Hty Hde.
  assert (Hwf1' : cache_wf w1) by (by apply (cache_wf_same wv)).
  destruct (cycle_entry kvs rd1 rd2 key v w1 Hwf1' Hv Hm Hr) as [_ H].
  cbn zeta in H. rewrite Hfresh in H.
  rewrite bool_decide_eq_true_2 in H by done. rewrite Hde in H. cbn in H.
  by rewrite lookup_insert_eq in H.
Qed.
(** ** What the cache points to *)

Lemma exec_live {X} (i : instr X) w l p :
  heap w !! l = Some (atomicValue p) →
  ∃ p', heap (exec i w).2 !! l = Some (atomicValue p').
Proof.
  intros Hl. destruct i; cbn; case_exec; eauto.
  - exists p. by apply lookup_app_l_Some.
  - unfold heap_Store. destruct (decide (l = v)) as [->|Hne].
    + rewrite list_lookup_alter_eq, Hl. cbn. eauto.
    + rewrite list_lookup_alter_ne by done. eauto.
  - exists p. by apply lookup_app_l_Some.
Qed.

Lemma run_live {A} (m : prog A) w l p :
  heap w !! l = Some (atomicValue p) →
  ∃ p', heap (run m w).2 !! l = Some (atomicValue p').
Proof.
  revert w p. induction m as [a|X i k IH]; intros w p Hl; [by eauto|].
  cbn [run]. destruct (exec_live i w l p Hl) as [p1 Hl1].
  destruct (exec i w) as [x w1]. by eapply IH.
Qed.

Lemma cache_live_same {A} (m : prog A) w :
  cached (cfg (run m w).2) = cached (cfg w) →
  cache_live w → cache_live (run m w).2.
Proof.
  intros Hc Hlive k l. rewrite Hc. intros Hk.
  destruct (Hlive k l Hk) as [p Hp]. by eapply run_live.
Qed.

Lemma Value_cache_live key w : cache_live w → cache_live (run (Value key) w).2.
Proof.
  intros Hlive. unfold Value. cbn.
  destruct (cached (cfg w) !! key) as [c|] eqn:Hc; cbn; [done|].
  destruct (reader_Value key (reader (cfg w))) as [p|]; cbn.
  - intros k l. cbn. rewrite lookup_insert. case_decide.
    + intros [= <-]. exists p. by rewrite lookup_app_r, Nat.sub_diag.
    + intros Hk. destruct (Hlive k l Hk) as [q Hq]. exists q.
      by apply lookup_app_l_Some.
  - intros k l Hk. cbn in *. destruct (Hlive k l Hk) as [q Hq]. exists q.
    by apply lookup_app_l_Some.
Qed.

Lemma thread_cache_live c w : cache_live w → cache_live (run (thread c) w).2.
Proof.
  intros Hlive. rewrite thread_run. destruct c.
  - apply cache_live_same; [|done].
    apply (no_CachedStore_run Load w Load_no_CachedStore).
  - by apply Value_cache_live.
  - apply cache_live_same; [|done].
    apply (no_CachedStore_run _ w (Scan_no_CachedStore vs)).
  - destruct (Watch_after_Value key o w) as [Hc Hh].
    intros k l. rewrite Hc, Hh. by apply Value_cache_live.
  - apply cache_live_same; [|done].
    apply (no_CachedStore_run Close w Close_no_CachedStore).
  - unfold watch. apply cache_live_same; [|done].
    apply (no_CachedStore_run _ w (watch_on_no_CachedStore (w_next w0))).
Qed.

Lemma run_calls_cache_live cs w : cache_live w → cache_live (run_calls cs w).
Proof.
  revert w. induction cs as [|c cs IH]; intros w Hlive; [done|].
  unfold run_calls in *. cbn [foldl]. by apply IH, thread_cache_live.
Qed.

Lemma cache_live_init srcs r m : cache_live (init_world srcs r m).
Proof. intros k l. cbn. by rewrite lookup_empty. Qed.

(** X16.  On an orchestrator used by one call at a time, starting from
    a new one: after any sequence of [Load], [Value], [Scan], [Watch],
    [Close] calls and runs of reconciliation loops, every pointer in the
    cache points to an allocated live value, never to an error value, and
    no two keys share an object. *)
Theorem cache_sound_after_calls cs srcs r m :
  let w := run_calls cs (init_world srcs r m) in
  cache_wf w ∧ cache_live w.
Proof.
  cbn zeta. split.
  - apply run_calls_cache_wf, cache_wf_init.
  - apply run_calls_cache_live, cache_live_init.
Qed.

(** ** The cache under overlapping calls *)

Lemma live_later_refl w : live_later w w.
Proof. intros l p Hl. eauto. Qed.

Lemma live_later_trans w1 w2 w3 :
  live_later w1 w2 → live_later w2 w3 → live_later w1 w3.
Proof. intros H12 H23 l p Hl. destruct (H12 l p Hl) as [p' Hl']. eauto. Qed.

Lemma exec_live_later {X} (i : instr X) w : live_later w (exec i w).2.
Proof. intros l p. apply exec_live. Qed.

Lemma exec_cache_live {X} (i : instr X) w :
  cache_live w → instr_live_ok i w → cache_live (exec i w).2.
Proof.
  intros Hlive Hok k l.
  assert (cached (cfg (exec i w).2) !! k = Some l →
          cached (cfg w) !! k = Some l ∨
          ∃ p, heap w !! l = Some (atomicValue p)) as H.
  { destruct i; cbn in *; case_exec; eauto.
    rewrite lookup_insert. case_decide; [|by left].
    intros [= <-]. by right. }
  intros Hk. destruct (H Hk) as [Hk'|[p Hp]].
  - destruct (Hlive k l Hk') as [p Hp]. by eapply exec_live.
  - by eapply exec_live.
Qed.

Lemma safe_live_later {A} (p : prog A) w w' :
  safe_live p w → live_later w w' → safe_live p w'.
Proof.
  intros Hp Hl. destruct p; cbn in *; [done|]. intros w'' Hl'.
  apply Hp. by eapply live_later_trans.
Qed.

Lemma safe_live_bind {A B} (m : prog A) (f : A → prog B) w :
  safe_live m w → (∀ a w', safe_live (f a) w') → safe_live (bind m f) w.
Proof.
  intros Hm Hf. revert w Hm. induction m as [a|X i k IH]; intros w Hm; cbn in *.
  - apply Hf.
  - intros w' Hl. destruct (Hm w' Hl) as [Hok Hk]. split; [done|]. by apply IH.
Qed.

Lemma no_CachedStore_safe_live {A} (p : prog A) w :
  all_instr not_CachedStore p → safe_live p w.
Proof.
  revert w. induction p as [a|X i k IH]; intros w Hp; cbn in *; [done|].
  destruct Hp as [Hi Hk]. intros w' Hl. split; [|by apply IH].
  by destruct i.
Qed.

Lemma Value_safe_live key w : safe_live (Value key) w.
Proof.
  unfold Value. cbn. intros w1 _. split; [done|].
  destruct (cached (cfg w1) !! key) as [c|]; cbn; [done|].
  intros w2 _. split; [done|].
  destruct (reader_Value key (reader (cfg w2))) as [p|]; cbn.
  - intros w3 Hl. split; [|done]. apply (Hl _ p). cbn.
    by rewrite lookup_app_r, Nat.sub_diag.
  - intros w3 _. done.
Qed.

Lemma thread_safe_live c w : safe_live (thread c) w.
Proof.
  destruct c; unfold thread; (apply safe_live_bind; [|done]).
  - apply no_CachedStore_safe_live, Load_no_CachedStore.
  - apply Value_safe_live.
  - apply no_CachedStore_safe_live, Scan_no_CachedStore.
  - unfold Watch. apply safe_live_bind; [apply Value_safe_live|].
    intros v w'. cbn. intros w1 _. split; [done|].
    destruct (heap_Load (heap w1) v); cbn; [|done]. intros w2 _. done.
  - apply no_CachedStore_safe_live, Close_no_CachedStore.
  - apply no_CachedStore_safe_live, watch_on_no_CachedStore.
Qed.

Lemma step_thread_live {A} i (ps : list (prog A)) w :
  cache_live w → Forall (λ p, safe_live p w) ps →
  cache_live (step_thread i ps w).2 ∧
  Forall (λ p, safe_live p (step_thread i ps w).2) (step_thread i ps w).1.
Proof.
  intros Hlive Hps. unfold step_thread.
  destruct (ps !! i) as [[a|X ins k]|] eqn:Hi; [done| |done].
  pose proof (Forall_lookup_1 _ _ _ _ Hps Hi) as Hp. cbn in Hp.
  destruct (Hp w (live_later_refl w)) as [Hok Hk].
  pose proof (exec_live_later ins w) as Hl.
  pose proof (exec_cache_live ins w Hlive Hok) as Hlive'.
  destruct (exec ins w) as [x w1]. cbn in *. split; [done|].
  apply Forall_insert; [|done].
  eapply Forall_impl; [done|]. intros p Hsafe. cbn in Hsafe.
  by apply (safe_live_later p w w1).
Qed.

(** X19.  However the instructions of overlapping calls and loops
    interleave on a new orchestrator, what the cache points to is always
    a live value: an error value is never cached, and a cached value
    never turns into one. *)
Theorem cache_live_any_schedule calls order srcs r m :
  cache_live (sched order (thread <$> calls) (init_world srcs r m)).2.
Proof.
  assert (Hps : Forall (λ p, safe_live p (init_world srcs r m))
                  (thread <$> calls)).
  { apply Forall_fmap, Forall_forall. intros c _. apply thread_safe_live. }
  pose proof (cache_live_init srcs r m) as Hlive.
  revert Hlive Hps.
  generalize (thread <$> calls) (init_world srcs r m).
  induction order as [|i order IH]; intros ps w Hlive Hps; [done|].
  cbn [sched]. destruct (step_thread_live i ps w Hlive Hps) as [Hlive' Hps'].
  destruct (step_thread i ps w) as [ps' w']. by apply IH.
Qed.

(** ** [Scan], further *)

(** X17.  Whatever [Scan] returns, memory that none of its targets
    points to is left as it was. *)
Theorem Scan_leaves_other_memory vs p w :
  p ∉ vs → mem (run (Scan vs) w).2 p = mem w p.
Proof.
  intros Hp. unfold Scan. cbn -[for_each_return].
  destruct (reader_Source (reader (cfg w))) as [data|e]; [|done].
  pose proof (Scan_loop data vs (emit EvSource w)) as H.
  destruct (run _ _) as [[e|] w']; destruct H as (_ & _ & H); cbn [snd].
  - destruct H as (i & v & t & Hv & _ & _ & _ & ->). cbn.
    unfold mem_set. rewrite decide_False.
    + apply decode_all_notin. intros Hin. apply Hp.
      by apply (subseteq_take i vs).
    + intros ->. apply Hp. by eapply list_elem_of_lookup_2.
  - destruct H as (_ & _ & ->). by apply decode_all_notin.
Qed.

Lemma decodes_ok_distinct data vs m :
  NoDup vs → decodes_ok data vs m →
  Forall (λ v, unmarshalJSON data (m v) = (decode_all data vs m v, None)) vs.
Proof.
  revert m. induction vs as [|v vs IH]; intros m Hnd Hok; [constructor|].
  apply NoDup_cons in Hnd as [Hv Hnd]. destruct Hok as [Hev Hok].
  unfold decode_all in *. cbn [foldl]. constructor.
  - fold (decode_all data vs (decode_into data m v)).
    rewrite decode_all_notin by done.
    unfold decode_into, mem_set. rewrite decide_True by done.
    destruct (unmarshalJSON data (m v)) as [t e]. cbn in *. by subst.
  - specialize (IH _ Hnd Hok). rewrite Forall_forall in IH |- *.
    intros u Hu. rewrite <- (IH u Hu).
    unfold decode_into, mem_set. rewrite decide_False; [done|].
    intros ->. done.
Qed.

(** X18.  When the targets are pairwise different pointers and [Scan]
    returns nil, each target holds what [unmarshalJSON] made of the one
    snapshot and of what the target held before the call: one target's
    decoding does not depend on another's. *)
Theorem Scan_distinct_targets vs data w :
  NoDup vs →
  reader_Source (reader (cfg w)) = Ok data →
  (run (Scan vs) w).1 = None →
  Forall (λ v, unmarshalJSON data (mem w v) = (mem (run (Scan vs) w).2 v, None))
         vs.
Proof.
  intros Hnd Hsrc. unfold Scan. cbn -[for_each_return]. rewrite Hsrc.
  pose proof (Scan_loop data vs (emit EvSource w)) as H.
  destruct (run _ _) as [[e|] w']; [done|]. intros _.
  destruct H as (_ & _ & _ & Hok & Hmem). cbn [snd]. rewrite Hmem.
  by apply decodes_ok_distinct.
Qed.

End Properties.

(** * The code on concrete inputs *)

Section Concrete.
Import Toy.
#[local] Existing Instance toy_env.

Example watched_level_cached :
  cached (cfg watched_level) !! "level" = Some 0 ∧
  observers (cfg watched_level) !! "level" = Some 7 ∧
  heap_Load (heap watched_level) 0 = Some (TInt 1).
Proof. vm_compute. repeat split. Qed.

(** P3 of the design, both halves: an update of ["level"] to the string
    ["debug"] leaves the cached payload 1 and calls nobody; an update to
    the integer 2 stores 2 and calls observer 7 once. *)
Example type_gated_notification :
  let w1 := (run (watch_on [Ok [str_kv "level" "debug"]]) watched_level).2 in
  let w2 := (run (watch_on [Ok [int_kv "level" 2]]) watched_level).2 in
  heap_Load (heap w1) 0 = Some (TInt 1) ∧
  observer_calls "level" (new_events watched_level w1) = [] ∧
  heap_Load (heap w2) 0 = Some (TInt 2) ∧
  observer_calls "level" (new_events watched_level w2)
  = [EvObserver 7 "level" 0 (Some (TInt 2))].
Proof. vm_compute. repeat split. Qed.

(** The cycle theorem at work on [watched_level], for the batch that sets
    ["level"] to the integer 2: its four hypotheses hold there, and it
    gives the new payload and the one call of observer 7. *)
Lemma watch_cycle_entry_witness :
  let kvs := [int_kv "level" 2] in
  let rd := [int_kv "level" 2; int_kv "level" 1] in
  let w' := (run (watch_on [Ok kvs]) watched_level).2 in
  cache_wf watched_level ∧
  cached (cfg watched_level) !! "level" = Some 0 ∧
  reader_Merge kvs (reader (cfg watched_level)) = (rd, None) ∧
  reader_Resolve rd = (rd, None) ∧
  cached (cfg w') = cached (cfg watched_level) ∧
  observers (cfg w') = observers (cfg watched_level) ∧
  heap_Load (heap w') 0 = Some (TInt 2) ∧
  observer_calls "level" (new_events watched_level w')
  = [EvObserver 7 "level" 0 (Some (TInt 2))].
Proof.
  cbn zeta.
  assert (Hwf : cache_wf watched_level).
  { apply run_calls_cache_wf, cache_wf_init. }
  assert (HK : cached (cfg watched_level) !! "level" = Some 0).
  { vm_compute. reflexivity. }
  assert (Hm : reader_Merge [int_kv "level" 2] (reader (cfg watched_level))
               = ([int_kv "level" 2; int_kv "level" 1], None)).
  { vm_compute. reflexivity. }
  assert (Hr : reader_Resolve [int_kv "level" 2; int_kv "level" 1]
               = ([int_kv "level" 2; int_kv "level" 1], None)).
  { vm_compute. reflexivity. }
  pose proof (watch_cycle_entry [int_kv "level" 2] _ _ "level" 0 watched_level
                Hwf HK Hm Hr) as (Hc & Ho & H).
  split; [exact Hwf|]. split; [exact HK|]. split; [exact Hm|].
  split; [exact Hr|]. split; [exact Hc|]. split; [exact Ho|].
  vm_compute in H. vm_compute. exact H.
Defined.

(** C2.  Two goroutines call [Value("level")] on a new orchestrator whose
    reader has the key.  Both execute [c.cached.Load] (line 129) before
    either stores.  The first then gets the object 0 from the reader,
    caches it and returns it; the second gets the object 1 and its
    [c.cached.Store] (line 133) replaces the entry: the cache now holds
    object 1 for the key, and the caller holding object 0 is left behind
    by the next reconciliation cycle, which updates object 1 only. *)
Theorem Value_race :
  let w0 := toy_world [] [int_kv "level" 1] in
  let ps := [Value "level"; Value "level"] in
  let '(ps1, w1) := sched [0; 1; 0; 0] ps w0 in
  let '(ps2, w2) := sched [1; 1] ps1 w1 in
  let w3 := (run (watch_on [Ok [int_kv "level" 2]]) w2).2 in
  ps1 !! 0 = Some (Ret 0) ∧
  cached (cfg w1) !! "level" = Some 0 ∧
  ps2 = [Ret 0; Ret 1] ∧
  cached (cfg w2) !! "level" = Some 1 ∧
  heap_Load (heap w3) 1 = Some (TInt 2) ∧
  heap_Load (heap w3) 0 = Some (TInt 1).
Proof. vm_compute. repeat split. Qed.

(** The same two calls one after the other: the second returns the
    object the first cached. *)
Example Value_twice :
  let w0 := toy_world [] [int_kv "level" 1] in
  let '(v1, w1) := run (Value "level") w0 in
  let '(v2, w2) := run (Value "level") w1 in
  v1 = 0 ∧ v2 = 0 ∧ cached (cfg w2) !! "level" = Some 0.
Proof. vm_compute. repeat split. Qed.

(** C10, as stated, fails: [Scan(v)] with the one target [v = 0], at
    position 0.  Decoding the snapshot into it fails and [Scan] returns
    that error, yet the target is not as it was: it was empty and now
    holds the byte that was decoded before the failure. *)
Lemma Scan_failed_target_modified :
  let w := toy_world [] [half_decodable] in
  let '(r, w') := run (Scan [0]) w in
  reader_Source (reader (cfg w)) = Ok [Byte.x61; Byte.xff] ∧
  r = Some (errOther "cannot unmarshal") ∧
  mem w 0 = [] ∧
  mem w' 0 = [Byte.x61] ∧
  ¬ (mem w' 0 = mem w 0).
Proof. vm_compute. repeat split. discriminate. Qed.

(** [Scan] into two targets when the snapshot decodes. *)
Example Scan_two_targets :
  let w := toy_world [] [str_kv "level" "ab"] in
  let '(r, w') := run (Scan [0; 1]) w in
  r = None ∧ mem w' 0 = [Byte.x61; Byte.x62] ∧ mem w' 1 = [Byte.x61; Byte.x62] ∧
  trace w' = [EvSource; EvUnmarshal [Byte.x61; Byte.x62] 0;
              EvUnmarshal [Byte.x61; Byte.x62] 1].
Proof. vm_compute. repeat split. Qed.

(** Two sources, the second of which cannot be watched: [Load] returns
    that error, the first source stays merged and watched, and [Resolve]
    is not called. *)

Example Load_second_source_fails :
  let '(r, w') := run Load (toy_world [src_a; src_b] []) in
  r = Some (errOther "no watch") ∧
  watchers (cfg w') = [w_a] ∧
  reader_Value "level" (reader (cfg w')) = Some (Some (TStr "debug")) ∧
  count_Resolve (trace w') = 0.
Proof. vm_compute. repeat split. Qed.

(** Both sources fine: the later one wins on ["level"], and [Resolve] is
    called once. *)

Example Load_two_sources :
  let '(r, w') := run Load (toy_world [src_a; src_b'] []) in
  r = None ∧
  watchers (cfg w') = [w_a; w_b] ∧
  reader_Value "level" (reader (cfg w')) = Some (Some (TStr "debug")) ∧
  count_Resolve (trace w') = 1.
Proof. vm_compute. repeat split. Qed.

(** [Close] when the second of three watchers fails to stop: the third
    is not stopped. *)
Example Close_stops_at_failure :
  let w := with_cfg (set_watchers [w_a; w_b; w_a]) (toy_world [] []) in
  let '(r, w') := run Close w in
  r = Some (errOther "stuck") ∧ trace w' = [EvStop w_a; EvStop w_b].
Proof. vm_compute. repeat split. Qed.

(** A loop whose watcher fails twice, delivers a batch and is then
    cancelled: two sleeps of one second, one merge, and a return. *)
Example watch_transient_then_cancel :
  let nexts := [Err (errOther "net"); Err (errOther "net");
                Ok [int_kv "level" 2];
                Err (errWrap "next" context_Canceled);
                Ok [int_kv "level" 3]] in
  let '(x, w') := run (watch_on nexts) watched_level in
  x = Returned ∧
  filter (λ e, is_Sleep e = true) (trace w')
  = [EvSleep time_Second; EvSleep time_Second] ∧
  heap_Load (heap w') 0 = Some (TInt 2).
Proof. vm_compute. repeat split. Qed.

(** ** The further properties at work *)

(** X1 on [plain_level]: the reader has ["level"]; after the first
    [Value("level")] the reader is emptied, and the second call still
    returns object 0. *)
Lemma Value_memoized_witness :
  (is_Some (cached (cfg plain_level) !! "level") ∨
   is_Some (reader_Value "level" (reader (cfg plain_level)))) ∧
  let '(v1, w1) := run (Value "level") plain_level in
  let w1' := with_cfg (set_reader []) w1 in
  run (Value "level") w1' = (v1, w1').
Proof.
  assert (H : is_Some (cached (cfg plain_level) !! "level") ∨
              is_Some (reader_Value "level" (reader (cfg plain_level)))).
  { right. vm_compute. eauto. }
  split; [exact H|]. exact (Value_memoized "level" plain_level [] H).
Defined.

(** X2 on [empty_world]: two misses on ["level"], then the reader gets
    the key. *)
Lemma Value_miss_then_hit_witness :
  cached (cfg empty_world) !! "level" = None ∧
  reader_Value "level" (reader (cfg empty_world)) = None ∧
  reader_Value "level" [int_kv "level" 1] = Some (Some (TInt 1)) ∧
  let '(v1, w1) := run (Value "level") empty_world in
  let '(v2, w2) := run (Value "level") w1 in
  let '(v3, w3) :=
    run (Value "level") (with_cfg (set_reader [int_kv "level" 1]) w2) in
  v1 ≠ v2 ∧ cfg w2 = cfg empty_world ∧
  heap w2 = heap empty_world ++ [errValue ErrNotFound; errValue ErrNotFound] ∧
  v3 ≠ v1 ∧ v3 ≠ v2 ∧
  heap w3 !! v3 = Some (atomicValue (Some (TInt 1))) ∧
  cached (cfg w3) !! "level" = Some v3 ∧
  heap w3 !! v1 = Some (errValue ErrNotFound) ∧
  heap w3 !! v2 = Some (errValue ErrNotFound).
Proof.
  assert (H1 : cached (cfg empty_world) !! "level" = None)
    by (vm_compute; reflexivity).
  assert (H2 : reader_Value "level" (reader (cfg empty_world)) = None)
    by (vm_compute; reflexivity).
  assert (H3 : reader_Value "level" [int_kv "level" 1] = Some (Some (TInt 1)))
    by (vm_compute; reflexivity).
  split; [exact H1|]. split; [exact H2|]. split; [exact H3|].
  exact (Value_miss_then_hit "level" empty_world _ _ H1 H2 H3).
Defined.

(** X3 on [watched_level], the reader emptied: [Watch("level", 9)]
    succeeds from the cache. *)
Lemma Watch_cached_key_witness :
  cached (cfg watched_level) !! "level" = Some 0 ∧
  heap_Load (heap watched_level) 0 = Some (TInt 1) ∧
  let w0 := with_cfg (set_reader []) watched_level in
  run (Watch "level" 9) w0
  = (None,
     with_cfg (λ c, set_observers (<["level" := 9]> (observers c)) c) w0).
Proof.
  assert (H1 : cached (cfg watched_level) !! "level" = Some 0)
    by (vm_compute; reflexivity).
  assert (H2 : heap_Load (heap watched_level) 0 = Some (TInt 1))
    by (vm_compute; reflexivity).
  split; [exact H1|]. split; [exact H2|].
  exact (Watch_cached_key "level" 9 0 (TInt 1) watched_level [] H1 H2).
Defined.

(** X4 on [empty_world]: [Watch("level", 7)] fails, the reader gets the
    key, [Watch("level", 7)] succeeds. *)
Lemma Watch_missing_then_present_witness :
  cached (cfg empty_world) !! "level" = None ∧
  reader_Value "level" (reader (cfg empty_world)) = None ∧
  reader_Value "level" [int_kv "level" 1] = Some (Some (TInt 1)) ∧
  let '(e1, w1) := run (Watch "level" 7) empty_world in
  let '(e2, w2) :=
    run (Watch "level" 7) (with_cfg (set_reader [int_kv "level" 1]) w1) in
  e1 = Some ErrNotFound ∧ cfg w1 = cfg empty_world ∧
  e2 = None ∧
  observers (cfg w2) = <["level" := 7]> (observers (cfg empty_world)) ∧
  (∃ v, cached (cfg w2) = <["level" := v]> (cached (cfg empty_world)) ∧
        heap empty_world !! v = None ∧
        heap w2 !! v = Some (atomicValue (Some (TInt 1)))) ∧
  trace w2 = trace empty_world.
Proof.
  assert (H1 : cached (cfg empty_world) !! "level" = None)
    by (vm_compute; reflexivity).
  assert (H2 : reader_Value "level" (reader (cfg empty_world)) = None)
    by (vm_compute; reflexivity).
  assert (H3 : reader_Value "level" [int_kv "level" 1] = Some (Some (TInt 1)))
    by (vm_compute; reflexivity).
  split; [exact H1|]. split; [exact H2|]. split; [exact H3|].
  exact (Watch_missing_then_present "level" 7 empty_world _ _ H1 H2 H3).
Defined.

(** X5 on two sources that load and can be watched. *)
Lemma Load_success_watchers_witness :
  let w := toy_world [src_a; src_b'] [] in
  (run Load w).1 = None ∧
  let w' := (run Load w).2 in
  ∃ ws,
    Forall2 (λ src x, src_Watch src = Ok x) (sources (cfg w)) ws ∧
    watchers (cfg w') = watchers (cfg w) ++ ws ∧
    spawned (new_events w w') = ws.
Proof.
  cbn zeta.
  assert (H : (run Load (toy_world [src_a; src_b'] [])).1 = None)
    by (vm_compute; reflexivity).
  split; [exact H|]. exact (Load_success_watchers _ H).
Defined.

(** X8 on the same sources: [w_b] cannot be stopped. *)
Lemma Load_then_Close_witness :
  let w := toy_world [src_a; src_b'] [] in
  (run Load w).1 = None ∧
  watchers (cfg w) = [] ∧
  let w1 := (run Load w).2 in
  let '(r, w2) := run Close w1 in
  ∃ ws,
    Forall2 (λ src x, src_Watch src = Ok x) (sources (cfg w)) ws ∧
    match list_find (λ x, is_Some (w_Stop x)) ws with
    | Some (i, x) =>
        r = w_Stop x ∧ new_events w1 w2 = EvStop <$> take (S i) ws
    | None => r = None ∧ new_events w1 w2 = EvStop <$> ws
    end.
Proof.
  cbn zeta.
  assert (H1 : (run Load (toy_world [src_a; src_b'] [])).1 = None)
    by (vm_compute; reflexivity).
  assert (H2 : watchers (cfg (toy_world [src_a; src_b'] [])) = [])
    by reflexivity.
  split; [exact H1|]. split; [exact H2|]. exact (Load_then_Close _ H1 H2).
Defined.

(** X9: a batch, a cancellation, and a batch that is never seen. *)
Lemma watch_stops_at_cancellation_witness :
  let c := Err (errWrap "next" context_Canceled) in
  is_cancel c = true ∧
  run (watch_on ([Ok [int_kv "level" 2]] ++ c :: [Ok [int_kv "level" 3]]))
      watched_level
  = run (watch_on ([Ok [int_kv "level" 2]] ++ [c])) watched_level.
Proof.
  cbn zeta.
  assert (H : is_cancel (Err (errWrap "next" context_Canceled)) = true)
    by reflexivity.
  split; [exact H|].
  exact (watch_stops_at_cancellation _ _ _ watched_level H).
Defined.

(** X10: an error and a batch, then another batch. *)
Lemma watch_on_app_witness :
  let n1 := [Err (errOther "net"); Ok [int_kv "level" 2]] in
  let n2 := [Ok [int_kv "level" 3]] in
  existsb is_cancel n1 = false ∧
  run (watch_on (n1 ++ n2)) watched_level
  = run (watch_on n2) (run (watch_on n1) watched_level).2.
Proof.
  cbn zeta.
  assert (H : existsb is_cancel
                [Err (errOther "net"); Ok [int_kv "level" 2]] = false)
    by reflexivity.
  split; [exact H|]. exact (watch_on_app _ _ watched_level H).
Defined.

(** X11: two errors in a row. *)
Lemma watch_transient_errors_witness :
  let nexts := [Err (errOther "net"); Err (errOther "net")] in
  forallb is_transient nexts = true ∧
  run (watch_on nexts) watched_level
  = (Blocked,
     mkWorld (cfg watched_level) (heap watched_level) (mem watched_level)
       (trace watched_level ++
        mjoin (replicate (length nexts)
                 [EvSleep time_Second;
                  EvLog Error "failed to watch next config: %v"]))).
Proof.
  cbn zeta.
  assert (H : forallb is_transient
                [Err (errOther "net"); Err (errOther "net")] = true)
    by reflexivity.
  split; [exact H|]. exact (watch_transient_errors _ watched_level H).
Defined.

(** X12 on [missed_then_watched]: the error value, object 0, is not in
    the cache, and a cycle that updates ["level"] leaves it alone. *)
Lemma watch_stores_into_cached_only_witness :
  let nexts := [Ok [int_kv "level" 2]] in
  0 < length (heap missed_then_watched) ∧
  (∀ k, cached (cfg missed_then_watched) !! k ≠ Some 0) ∧
  let w' := (run (watch_on nexts) missed_then_watched).2 in
  heap w' !! 0 = heap missed_then_watched !! 0 ∧
  cached (cfg w') = cached (cfg missed_then_watched) ∧
  observers (cfg w') = observers (cfg missed_then_watched) ∧
  watchers (cfg w') = watchers (cfg missed_then_watched) ∧
  mem w' = mem missed_then_watched.
Proof.
  cbn zeta.
  assert (H1 : 0 < length (heap missed_then_watched))
    by (vm_compute; lia).
  assert (H2 : ∀ k, cached (cfg missed_then_watched) !! k ≠ Some 0).
  { intros k Hk.
    destruct (run_calls_cache_live
                [call_Value "missing"; call_Watch "level" 7] plain_level
                (cache_live_init _ _ _) k 0 Hk) as [p Hp].
    vm_compute in Hp. discriminate Hp. }
  split; [exact H1|]. split; [exact H2|].
  exact (watch_stores_into_cached_only _ 0 missed_then_watched H1 H2).
Defined.

Lemma toy_deep_equal_refl (d : toy_dyn) : toy_deep_equal d d = true.
Proof. destruct d; cbn; [apply Z.eqb_refl|apply String.eqb_refl]. Qed.

(** X13 on [level_changed]: the first scan stores 2 and calls observer
    7, the second does nothing. *)
Lemma second_scan_is_quiet_witness :
  cache_wf level_changed ∧
  (∀ d, deep_equal d d = true) ∧
  let w1 := (run watch_scan level_changed).2 in
  let w2 := (run watch_scan w1).2 in
  (∀ K l, cached (cfg level_changed) !! K = Some l →
          heap_Load (heap w2) l = heap_Load (heap w1) l) ∧
  new_events w1 w2 = [].
Proof.
  assert (H1 : cache_wf level_changed).
  { apply (cache_wf_same watched_level); [reflexivity|reflexivity|].
    apply run_calls_cache_wf, cache_wf_init. }
  assert (H2 : ∀ d : toy_dyn, toy_deep_equal d d = true)
    by exact toy_deep_equal_refl.
  split; [exact H1|]. split; [exact H2|].
  exact (second_scan_is_quiet level_changed H1 H2).
Defined.

(** X14 over the forgetful reader: ["level"] is deleted. *)
Lemma vanished_key_stays_cached_witness :
  let kvs := [del_kv "level"] in
  let w' := (@run del_env _ (watch_on [Ok kvs]) del_watched).2 in
  cache_wf del_watched ∧
  cached (cfg del_watched) !! "level" = Some 0 ∧
  @reader_Merge del_env kvs (reader (cfg del_watched)) = ([], None) ∧
  @reader_Resolve del_env [] = ([], None) ∧
  @reader_Value del_env "level" [] = None ∧
  run (Value "level") w' = (0, w') ∧
  heap_Load (heap w') 0 = heap_Load (heap del_watched) 0 ∧
  observer_calls "level" (new_events del_watched w') = [].
Proof.
  cbn zeta.
  assert (H1 : cache_wf del_watched)
    by apply run_calls_cache_wf, cache_wf_init.
  assert (H2 : cached (cfg del_watched) !! "level" = Some 0)
    by (vm_compute; reflexivity).
  assert (H3 : @reader_Merge del_env [del_kv "level"]
                 (reader (cfg del_watched)) = ([], None))
    by (vm_compute; reflexivity).
  assert (H4 : @reader_Resolve del_env [] = ([], None)) by reflexivity.
  assert (H5 : @reader_Value del_env "level" [] = None) by reflexivity.
  split; [exact H1|]. split; [exact H2|]. split; [exact H3|].
  split; [exact H4|]. split; [exact H5|].
  exact (vanished_key_stays_cached _ _ _ "level" 0 del_watched
           H1 H2 H3 H4 H5).
Defined.

(** X15 on [plain_level]: [Watch("level", 7)], then the integer 2. *)
Lemma Watch_then_update_witness :
  let kvs := [int_kv "level" 2] in
  let rd := [int_kv "level" 2; int_kv "level" 1] in
  let fresh := Some (TInt 2) in
  let v := (run (Value "level") plain_level).1 in
  let w1 := (run (Watch "level" 7) plain_level).2 in
  let w2 := (run (watch_on [Ok kvs]) w1).2 in
  cache_wf plain_level ∧
  (run (Watch "level" 7) plain_level).1 = None ∧
  reader_Merge kvs (reader (cfg w1)) = (rd, None) ∧
  reader_Resolve rd = (rd, None) ∧
  reader_Value "level" rd = Some fresh ∧
  reflect_TypeOf fresh = reflect_TypeOf (heap_Load (heap w1) v) ∧
  reflect_DeepEqual fresh (heap_Load (heap w1) v) = false ∧
  heap_Load (heap w2) v = fresh ∧
  observer_calls "level" (new_events w1 w2) = [EvObserver 7 "level" v fresh].
Proof.
  cbn zeta.
  assert (H1 : cache_wf plain_level) by apply cache_wf_init.
  assert (H2 : (run (Watch "level" 7) plain_level).1 = None)
    by (vm_compute; reflexivity).
  assert (H3 : reader_Merge [int_kv "level" 2]
                 (reader (cfg (run (Watch "level" 7) plain_level).2))
               = ([int_kv "level" 2; int_kv "level" 1], None))
    by (vm_compute; reflexivity).
  assert (H4 : reader_Resolve [int_kv "level" 2; int_kv "level" 1]
               = ([int_kv "level" 2; int_kv "level" 1], None))
    by (vm_compute; reflexivity).
  assert (H5 : reader_Value "level" [int_kv "level" 2; int_kv "level" 1]
               = Some (Some (TInt 2)))
    by (vm_compute; reflexivity).
  assert (H6 : reflect_TypeOf (Some (TInt 2))
               = reflect_TypeOf
                   (heap_Load (heap (run (Watch "level" 7) plain_level).2)
                      (run (Value "level") plain_level).1))
    by (vm_compute; reflexivity).
  assert (H7 : reflect_DeepEqual (Some (TInt 2))
                 (heap_Load (heap (run (Watch "level" 7) plain_level).2)
                    (run (Value "level") plain_level).1) = false)
    by (vm_compute; reflexivity).
  split; [exact H1|]. split; [exact H2|]. split; [exact H3|].
  split; [exact H4|]. split; [exact H5|]. split; [exact H6|].
  split; [exact H7|].
  exact (Watch_then_update "level" 7 _ _ _ _ plain_level
           H1 H2 H3 H4 H5 H6 H7).
Defined.

(** X17 and X18 on two targets, pointers 0 and 1; pointer 2 is no
    target. *)
Lemma Scan_leaves_other_memory_witness :
  let w := toy_world [] [str_kv "level" "ab"] in
  (2 ∉ [0; 1]) ∧ mem (run (Scan [0; 1]) w).2 2 = mem w 2.
Proof.
  cbn zeta.
  assert (H : 2 ∉ [0; 1]).
  { intros Hin. apply elem_of_cons in Hin as [Hin|Hin]; [lia|].
    apply elem_of_cons in Hin as [Hin|Hin]; [lia|].
    by apply elem_of_nil in Hin. }
  split; [exact H|]. exact (Scan_leaves_other_memory _ _ _ H).
Defined.

Lemma Scan_distinct_targets_witness :
  let w := toy_world [] [str_kv "level" "ab"] in
  let data := [Byte.x61; Byte.x62] in
  NoDup [0; 1] ∧
  reader_Source (reader (cfg w)) = Ok data ∧
  (run (Scan [0; 1]) w).1 = None ∧
  Forall (λ v, unmarshalJSON data (mem w v)
               = (mem (run (Scan [0; 1]) w).2 v, None)) [0; 1].
Proof.
  cbn zeta.
  assert (H1 : NoDup [0; 1]).
  { apply NoDup_cons. split.
    - intros Hin. apply elem_of_cons in Hin as [Hin|Hin]; [lia|].
      by apply elem_of_nil in Hin.
    - apply NoDup_singleton. }
  assert (H2 : reader_Source
                 (reader (cfg (toy_world [] [str_kv "level" "ab"])))
               = Ok [Byte.x61; Byte.x62])
    by (vm_compute; reflexivity).
  assert (H3 : (run (Scan [0; 1]) (toy_world [] [str_kv "level" "ab"])).1
               = None)
    by (vm_compute; reflexivity).
  split; [exact H1|]. split; [exact H2|]. split; [exact H3|].
  exact (Scan_distinct_targets _ _ _ H1 H2 H3).
Defined.

End Concrete.
